(* ===== verification/_CoqProject ===== *)
-Q . S2P
Prelude.v
Path.v
ProjectorRs.v
Operation.v
Json.v
JsonType.v
Fs.v
Main.v
Spec.v
