(* ===== verification/Prelude.v ===== *)
(** * A verification development of [projector]

    [projector] is a small Rust command-line tool: a key/value store whose
    values are attached to filesystem directories.  A lookup made from a
    directory sees the values of that directory and of all its ancestors,
    the nearest directory winning.  The store is one JSON file
    ([{"projector": {"<dir>": {"<key>": "<value>"}}}]) that is loaded at
    start, changed by at most one operation and written back whole.

    ** The program and its parts

    - [src/src/projector.rs]: [struct Data] (the persisted map from
      [PathBuf] to [HashMap<String, String>]) and [struct Projector]
      ([config], [pwd], [data]) with [get_value_all], [get_value],
      [set_value], [remove_value], [save] and [from_config].
    - [src/src/config.rs]: [enum Operation] ([Print], [Add], [Remove]),
      [TryFrom<Vec<String>> for Operation] (command-line words to an
      operation, or an error), [get_config], [get_pwd] and
      [TryFrom<Opts> for Config].
    - [src/src/bin/projector.rs]: [main], which builds the [Config], loads
      the [Projector], dispatches on the operation and saves.
    - Outside [src/]: the Rust standard library's [std::path] (how a
      [PathBuf] is split into components and what [Path::parent] returns),
      [HashMap]'s [extend], [entry(..).or_default()] and [get_mut], and
      [serde_json].  These are modelled from their documented behaviour.

    ** Files of the development

    - [Prelude] (this file): the [result] type of Rust's [Result] with the
      [x ←? m ; k] notation (Rust's [?]) in [projector_scope], [map_err],
      and explicit state passing with errors, [⟨s, x⟩ ⇐ m ; k] ([st_bind]):
      a call on the filesystem returns the state it leaves with its
      [result], and an error keeps that state; a model of
      the [HashMap] calls the code makes on stdpp's [gmap]: [extend] (a
      fold of inserts, proved to be a left-biased union), and
      [hm_entry_or_default], [hm_get_mut_modify], [hm_insert] for a map
      whose keys are compared through a projection [kf] and which keeps the
      first key of each class; lemmas on strings and options; the hint
      databases [projector] and [projector_rw] and the tactic
      [simpl_result].
    - [Path]: [std::path] on Unix.  A path is the list of its [Component]s,
      which is what [PathBuf]'s [Eq] and [Hash] compare, so a
      [HashMap<PathBuf, V>] is [PathBufMap V], a [gmap] keyed by component
      lists that keeps the key's spelling beside the value.  [components]
      splits a raw path as [Path::components] does; [parent] is
      [Path::parent]; [push] is [PathBuf::push]; [ancestors] is the chain
      of parents.  Lemmas: parsed paths are well formed
      ([components_wf]) and the chain holds exactly the prefixes of a
      well-formed path ([ancestors_prefix], [ancestors_complete]).
    - [ProjectorRs]: [src/projector.rs] in memory.  [Data] and
      [Projector] (records of the two structs) and the methods
      [get_value_all] (with its two loops [collect_paths] and
      [merge_step]), [get_value] (with its loop [get_value_loop]),
      [set_value] and [remove_value], each a transcription of the source;
      the file's [mod test] as [get_data] and the boolean tests
      [test_get_value], [test_set_value], [test_delete_value].  [resolve]
      is the abstract meaning of the store: the value in the nearest
      directory of a chain that defines the key.  Theorems: refinement of
      both readers to [resolve] (C2, C3) and the spec's consistency law
      (C1); termination of the prefix loop with the fuel the code is
      given (C8) and its completeness (C10); write-then-read (C4);
      removal falls through to the parent (C5); non-interference of
      writes across directories (C6) and keys (C7) and its converse for
      descendants (C11).  The key-spelling invariant [data_wf] is kept
      by every mutation (Main's [set_value_wf], [remove_value_wf]).  The unit
      tests of [mod test] are definitions, not claims.
    - [Operation]: [config.rs].  [Operation], [try_from] with its three
      error messages, [get_config] (with [PathBuf::push]), [get_pwd], the
      [Opts] and [Config] records and [config_try_from].  Theorems:
      [try_from] accepts exactly the four command-line shapes (C12), its
      error messages (C13, C16) and the [usize] counts they report, which
      never wrap (C26); the environment config path (C14).  The four
      tests of [config.rs] are boolean definitions over the environment.
    - [Json]: the part of [serde_json] the code uses, byte for byte.  The
      compact printer ([escape_byte], [ser_str], [ser_map], the derived
      [Serialize] of [Data] as [ser_data], [print_data], [to_string_scope])
      with the one error [to_string] can return here: a [PathBuf] key that
      is not UTF-8 ([utf8_valid], [path_utf8], [to_string_data]), and the
      parser of the derived [Deserialize] of
      [Data] ([parse_data]: object form with [data_field] per key, unknown
      fields skipped by [ignore_loop], serde_json's iterative
      [ignore_value] with its stack of open brackets; sequence form;
      [parse_map] and [map_entries] for the two [HashMap]s;
      [parse_str_body] with every escape, [\u] surrogate pairs and
      [encode_utf8]), all in the [result] monad with serde_json's error
      codes.  Theorems: printing then parsing gives back any well-formed
      store, for every [HashMap] iteration order ([from_str_ser_data],
      used by C19) and any scope ([from_str_scope_ser], used by C22);
      [from_str] always ends with a serde_json outcome (C17); what it loads
      is well formed ([from_str_data_wf]); it also accepts the sequence
      form (C18); the
      [\u] arithmetic stays within code points and bytes
      ([surrogate_pair_range], [encode_utf8_bytes]).
    - [JsonType]: the serde data-model types of the printed values
      ([json_ty]: [ty_Data], [ty_Scope]) and a typing judgment [typed] on
      JSON text, the grammar of RFC 8259 written independently of the
      printer.  Theorem: the config file [save] writes and the line [main]
      prints are JSON texts of their types, for every value and every
      [HashMap] order (C9).
    - [Fs]: the four [std::fs] calls as the class [FileSystem] with the
      laws [FileSystemLaws] (a successful write is read back and exists);
      [create_dir_all] and [write] return the state they leave, also on an
      error.  [MemFs], an in-memory instance with directories, files and
      read-only directories whose [create_dir_all] follows std's algorithm
      (directories made before a failure stay), with the lemmas that it
      succeeds when no ancestor is a file or read-only and that it never
      writes a file.
    - [Main]: [save], [from_config] (with its literal default contents)
      and [main] of [bin/projector.rs]; [save] and [main] return the
      filesystem they leave with the lines [println!] writes or a
      [main_error] (configuration, I/O or serde_json).  Theorems, for
      every lawful filesystem: a saved store is loaded back unchanged,
      for the printer's [HashMap] order and for every other iteration
      order of the maps (C19); loading falls back to the empty store on a
      missing, unreadable or unparsable file (C20); a value added by one
      run is printed by the next (C21); printing everything writes nothing
      and prints JSON that parses back to the merged scope (C22); [rm]
      always rewrites the file (C23); [add] over a corrupt file discards
      its content (C24); on [MemFs], [add] succeeds whenever the config's
      directories can be created and the directory keys are UTF-8 (C25),
      and [add] from a working directory that is not UTF-8 fails without
      writing a file (C15).

    - [Spec]: the contract of spec.md sections 3 and 4 on an abstract
      store [AStore] (directory to [Scope]): [resolve_one] and
      [resolve_all], which read the ancestors of the lexically normalised
      directory ([normalize]: [.] dropped, [..] cancels its parent, as
      spec.md's "every ancestor of the current directory" means),
      [set_value_spec], [remove_value_spec], the state machine
      [spec_apply]/[spec_run] of successive invocations, [load], and the
      readers' equivalence [≃] (an empty scope is an absent one) with its
      decision procedure and [Proper] instances for setoid rewriting.
      [abs] maps the code's [Data] to it.  Theorems: the four methods
      refine the spec operations from every working directory without
      [.] or [..] components, which is what [env::current_dir] returns
      (C27); successive runs of [main] sharing a config file ([run_all])
      simulate [spec_run] (C28); the readers ignore empty scopes (C29).

    ** Bounds and fuel

    The loops of the code walk a path up to the root.  [parent] drops one
    component, so a path of [n] components has at most [n + 1] ancestors
    (the empty relative path included) and the fuel [S n] ([walk_fuel])
    used for [get_value_all] and [get_value] is enough; [collect_paths_fuel]
    (C8) and the lemma [get_value_loop_resolve] show the loops finish
    with any fuel above [n] and that more fuel changes nothing, so the
    [default] taken on running out of fuel is never reached.  The parser's
    loops (map entries, [ignore_value]) consume at least one byte per
    iteration; [from_str] gives them [S (length input)] and [Json.advances]
    lemmas show the fuel error [OutOfFuel] is never returned (C17).
    [MemFs.create_dir_all] recurses on [parent] with fuel [S (length p)],
    enough for the same reason ([MemFs.create_dir_all_ok]).

    ** Not modelled

    Argument parsing by [clap] ([Opts::parse]) is generated by a derive in
    [src/opts.rs], which is not among the sources, and spec.md puts it out
    of scope (an external collaborator that supplies the operation, the
    working directory and the config path): [main] takes the parsed
    [Opts].  Standard output is the list of printed lines;
    process exit codes are glue.  Non-Unix path syntax (Windows prefixes)
    is not modelled: the tool is built for Unix.  Strings are byte strings;
    UTF-8 validity is checked where the code can fail on it, the
    serialisation of a [PathBuf] key; the validity Rust guarantees for a
    [String], and the check [read_to_string] makes, are not tracked.  A
    failed [write] writes nothing (a write that truncates the file and
    then fails part way is not modelled).  serde_json's recursion limit is not modelled: [Data]
    itself nests three levels, but the model skips unknown fields of any
    nesting depth, where serde_json may stop with [RecursionLimitExceeded];
    JSON numbers only occur in skipped values and are skipped, not
    converted.  The filesystem compares
    paths by components: symbolic links and the resolution of [..] by
    the filesystem are left out, and concurrent runs are not modelled.  An [anyhow::Error]
    is modelled by the message it displays or the [io_error] it wraps. *)

From Stdlib Require Export Ascii String.
From stdpp Require Export base gmap strings list fin_maps.

Declare Scope projector_scope.
Delimit Scope projector_scope with proj.
Open Scope projector_scope.

(** ** Rust's [Result] *)

Inductive result (A E : Type) : Type :=
| Ok (a : A)
| Err (e : E).
Arguments Ok {A E} a.
Arguments Err {A E} e.

Definition result_bind {A B E} (m : result A E) (k : A -> result B E) : result B E :=
  match m with
  | Ok a => k a
  | Err e => Err e
  end.

(** The [?] operator of Rust: [x ←? m ; k] stops at the first [Err]. *)
Notation "x ←? m ; k" := (result_bind m (fun x => k))
  (at level 100, m at next level, right associativity) : projector_scope.

Definition is_ok {A E} (r : result A E) : bool :=
  match r with Ok _ => true | Err _ => false end.

(** [Result::ok]. *)
Definition res_ok {A E} (r : result A E) : option A :=
  match r with Ok a => Some a | Err _ => None end.

(** [Result::map_err]; also the [From] conversion [?] applies to an error
    on its way into [anyhow::Error]. *)
Definition map_err {A E F} (f : E -> F) (r : result A E) : result A F :=
  match r with Ok a => Ok a | Err e => Err (f e) end.

(** ** Explicit state passing with errors

    A call that acts on a state (the filesystem) returns the state it
    leaves and its [result].  On an [Err] the state is kept, not rolled
    back: what the calls before the error did stays done.
    [⟨s, x⟩ ⇐ m ; k] runs [m], and on [Ok x] runs [k] from the state [s]
    [m] left; on [Err] it stops with [m]'s state and error. *)
Definition st_bind {S A B E} (m : S * result A E) (k : S -> A -> S * result B E) : S * result B E :=
  match m with
  | (s, Ok a) => k s a
  | (s, Err e) => (s, Err e)
  end.

Notation "⟨ s , x ⟩ ⇐ m ; k" := (st_bind m (fun s x => k))
  (at level 100, s binder, x binder, m at next level, right associativity) : projector_scope.

Definition st_map_err {S A E F} (f : E -> F) (m : S * result A E) : S * result A F :=
  (m.1, map_err f m.2).

(** ** The [HashMap] calls of the code, on [gmap]

    [HashMap::extend] inserts the pairs of its argument one by one, so a
    key of the argument overrides the same key of the receiver. *)

Definition extend `{Countable K} {V : Type} (out m : gmap K V) : gmap K V :=
  map_fold (fun k v acc => <[k:=v]> acc) out m.

(** A [HashMap<K, V>] whose [Eq]/[Hash] compare [kf k] rather than [k]
    (as [PathBuf] compares components): a [gmap] on the class [kf k] that
    stores the key the entry was created with and its value.  [insert] on
    an existing class keeps the old key and replaces the value. *)

Section KeyedHashMapOps.
Context {K KC V : Type} `{Countable KC} (kf : K -> KC).

(** [m.entry(k).or_default()] followed by [f] on the value. *)
Definition hm_entry_or_default `{Empty V} (k : K) (f : V -> V) (m : gmap KC (K * V))
    : gmap KC (K * V) :=
  <[kf k := match m !! kf k with
            | Some (k0, v) => (k0, f v)
            | None => (k, f ∅)
            end]> m.

(** [m.get_mut(k).map(f)]: nothing happens when the key is absent. *)
Definition hm_get_mut_modify (k : K) (f : V -> V) (m : gmap KC (K * V)) : gmap KC (K * V) :=
  alter (fun '(k0, v) => (k0, f v)) (kf k) m.

(** [m.insert(k, v)] (the returned old value is dropped). *)
Definition hm_insert (k : K) (v : V) (m : gmap KC (K * V)) : gmap KC (K * V) :=
  <[kf k := match m !! kf k with
            | Some (k0, _) => (k0, v)
            | None => (k, v)
            end]> m.

(** The stored key of every entry is in the class it is filed under. *)
Definition hm_keys_coherent (m : gmap KC (K * V)) : Prop :=
  map_Forall (fun c kv => kf kv.1 = c) m.

#[global] Instance hm_keys_coherent_dec (m : gmap KC (K * V)) : Decision (hm_keys_coherent m).
Proof. unfold hm_keys_coherent. apply map_Forall_dec. intros. apply _. Defined.
End KeyedHashMapOps.

(** ** Shared automation *)

Create HintDb projector discriminated.
Create Rewrite HintDb projector_rw.

(** ** Lemmas on [Result], strings and options *)

Lemma result_bind_Ok {A B E} (m : result A E) (k : A -> result B E) b :
  result_bind m k = Ok b <-> exists a, m = Ok a /\ k a = Ok b.
Proof.
  destruct m as [a|e]; simpl; split.
  - eauto.
  - by intros (? & [= <-] & ?).
  - done.
  - by intros (? & ? & ?).
Qed.

Lemma map_err_Ok {A E F} (f : E -> F) (r : result A E) a : map_err f r = Ok a <-> r = Ok a.
Proof. destruct r; simpl; split; congruence. Qed.

Lemma st_bind_Ok {S A B E} (m : S * result A E) (k : S -> A -> S * result B E) s b :
  st_bind m k = (s, Ok b) <-> exists s1 a, m = (s1, Ok a) /\ k s1 a = (s, Ok b).
Proof.
  destruct m as [s1 [a|e]]; simpl; split.
  - eauto.
  - by intros (? & ? & [= <- <-] & ?).
  - done.
  - by intros (? & ? & ? & ?).
Qed.

Lemma st_map_err_Ok {S A E F} (f : E -> F) (m : S * result A E) s a :
  st_map_err f m = (s, Ok a) <-> m = (s, Ok a).
Proof.
  destruct m as [s1 [a1|e]]; unfold st_map_err; simpl; rewrite !pair_equal_spec; split;
    intros [-> H]; split; by inversion H.
Qed.

Ltac simpl_result :=
  repeat match goal with
  | H : Ok _ = Ok _ |- _ => injection H as H
  | H : Err _ = Err _ |- _ => injection H as H
  | H : Ok _ = Err _ |- _ => discriminate H
  | H : Err _ = Ok _ |- _ => discriminate H
  | H : result_bind ?m _ = Ok _ |- _ =>
      let a := fresh "a" in let Ha := fresh "Ha" in
      apply result_bind_Ok in H as (a & Ha & H)
  | H : st_bind ?m _ = (_, Ok _) |- _ =>
      let s := fresh "s" in let a := fresh "a" in let Ha := fresh "Ha" in
      apply st_bind_Ok in H as (s & a & Ha & H)
  | H : st_map_err _ _ = (_, Ok _) |- _ => apply st_map_err_Ok in H
  | H : map_err _ _ = Ok _ |- _ => apply map_err_Ok in H
  | H : (_, _) = (_, _) |- _ => apply pair_equal_spec in H as [? H]
  end; subst.

(** stdpp makes [String.append] [simpl never]; its defining equation. *)
Lemma string_app_cons (c : ascii) (s t : string) :
  (String c s +:+ t = String c (s +:+ t))%string.
Proof. reflexivity. Qed.

Lemma string_app_assoc (s t u : string) : ((s +:+ t) +:+ u = s +:+ (t +:+ u))%string.
Proof. induction s as [|c s IH]; [done|]. by rewrite !string_app_cons, IH. Qed.

Lemma list_ascii_of_string_app (s t : string) :
  list_ascii_of_string (s +:+ t) = list_ascii_of_string s ++ list_ascii_of_string t.
Proof. induction s as [|c s IH]; [done|]. rewrite string_app_cons. simpl. by rewrite IH. Qed.

Lemma option_bind_Some {A B} (m : option A) (k : A -> option B) b :
  m ≫= k = Some b <-> exists a, m = Some a /\ k a = Some b.
Proof.
  destruct m as [a|]; simpl; split.
  - eauto.
  - by intros (? & [= <-] & ?).
  - done.
  - by intros (? & ? & ?).
Qed.


(** ** Lemmas on the [HashMap] calls *)

Section HashMapLemmas.
Context `{Countable K} {V : Type}.

Lemma extend_union (out m : gmap K V) : extend out m = m ∪ out.
Proof.
  unfold extend. revert out. induction m as [|k v m Hk IH] using map_ind; intros out.
  - by rewrite map_fold_empty, map_empty_union.
  - rewrite map_fold_insert_L; [| intros; by apply insert_insert_ne | done].
    by rewrite IH, insert_union_l.
Qed.

Lemma lookup_extend (out m : gmap K V) k :
  extend out m !! k = match m !! k with Some v => Some v | None => out !! k end.
Proof. rewrite extend_union, lookup_union. by destruct (m !! k), (out !! k). Qed.

(** Inserting entries with distinct keys one by one ([extend] from a
    list) is the left-biased union with the map built from them. *)
Lemma foldl_insert_union (l : list (K * V)) (acc : gmap K V) :
  NoDup l.*1 -> foldl (fun m kv => <[kv.1 := kv.2]> m) acc l = list_to_map l ∪ acc.
Proof.
  revert acc. induction l as [|[k v] l IH]; intros acc Hnd; simpl.
  - by rewrite map_empty_union.
  - apply NoDup_cons in Hnd as [Hk Hnd]. rewrite IH by done.
    rewrite <-insert_union_r, insert_union_l; [done|]. by apply not_elem_of_list_to_map_1.
Qed.
(** Entries listed in any order rebuild the map they were listed from. *)
Lemma perm_map_to_list (l : list (K * V)) (m : gmap K V) :
  l ≡ₚ map_to_list m -> NoDup l.*1 /\ list_to_map l = m.
Proof.
  intros Hp. assert (Hnd : NoDup l.*1) by (rewrite Hp; apply NoDup_fst_map_to_list).
  split; [done|]. rewrite (list_to_map_proper l (map_to_list m)); [|done|done].
  apply list_to_map_to_list.
Qed.

Lemma foldl_insert_perm (l : list (K * V)) (m : gmap K V) :
  l ≡ₚ map_to_list m -> foldl (fun m kv => <[kv.1 := kv.2]> m) ∅ l = m.
Proof.
  intros Hp. destruct (perm_map_to_list l m Hp) as [Hnd Hm].
  by rewrite foldl_insert_union, Hm, map_union_empty.
Qed.
End HashMapLemmas.

Section KeyedHashMapLemmas.
Context {K KC V : Type} `{Countable KC} (kf : K -> KC).

Lemma hm_lookup_entry_or_default `{Empty V} (m : gmap KC (K * V)) k f c :
  snd <$> hm_entry_or_default kf k f m !! c =
  if decide (kf k = c) then Some (f (default ∅ (snd <$> m !! kf k))) else snd <$> m !! c.
Proof.
  unfold hm_entry_or_default. case_decide as Hk.
  - rewrite <- Hk, lookup_insert_eq. by destruct (m !! kf k) as [[]|].
  - by rewrite lookup_insert_ne.
Qed.

Lemma hm_lookup_get_mut_modify (m : gmap KC (K * V)) k f c :
  snd <$> hm_get_mut_modify kf k f m !! c =
  if decide (kf k = c) then f <$> (snd <$> m !! kf k) else snd <$> m !! c.
Proof.
  unfold hm_get_mut_modify. rewrite lookup_alter.
  case_decide as Hk; [|done]. by destruct (m !! kf k) as [[]|].
Qed.

Lemma hm_lookup_insert (m : gmap KC (K * V)) k v c :
  snd <$> hm_insert kf k v m !! c = if decide (kf k = c) then Some v else snd <$> m !! c.
Proof.
  unfold hm_insert. case_decide as Hk.
  - rewrite <- Hk, lookup_insert_eq. by destruct (m !! kf k) as [[]|].
  - by rewrite lookup_insert_ne.
Qed.

Lemma hm_entry_or_default_coherent `{Empty V} (m : gmap KC (K * V)) k f :
  hm_keys_coherent kf m -> hm_keys_coherent kf (hm_entry_or_default kf k f m).
Proof.
  unfold hm_entry_or_default. intros Hm.
  apply map_Forall_insert_2; [|done].
  destruct (m !! kf k) as [[k0 v0]|] eqn:E; simpl; [|done]. by apply (Hm _ _ E).
Qed.

Lemma hm_get_mut_modify_coherent (m : gmap KC (K * V)) k f :
  hm_keys_coherent kf m -> hm_keys_coherent kf (hm_get_mut_modify kf k f m).
Proof.
  unfold hm_get_mut_modify. intros Hm c [k' v]. rewrite lookup_alter.
  case_decide as Hc; [|apply Hm]. subst c.
  destruct (m !! kf k) as [[k0 v0]|] eqn:E; simpl; [|done]. intros [= <- <-]. by apply (Hm _ _ E).
Qed.

Lemma hm_insert_coherent (m : gmap KC (K * V)) k v :
  hm_keys_coherent kf m -> hm_keys_coherent kf (hm_insert kf k v m).
Proof.
  unfold hm_insert. intros Hm.
  apply map_Forall_insert_2; [|done].
  destruct (m !! kf k) as [[k0 v0]|] eqn:E; simpl; [|done]. by apply (Hm _ _ E).
Qed.

Lemma hm_entries_fst (l : list (K * V)) :
  ((fun kv => (kf kv.1, kv)) <$> l).*1 = kf <$> l.*1.
Proof. by rewrite <-!list_fmap_compose. Qed.

(** The same for [HashMap::insert] on a keyed map, when no key class repeats
    and none is already present. *)
Lemma foldl_hm_insert (l : list (K * V)) (acc : gmap KC (K * V)) :
  NoDup (kf <$> l.*1) -> Forall (fun kv => acc !! kf kv.1 = None) l ->
  foldl (fun m kv => hm_insert kf kv.1 kv.2 m) acc l = list_to_map ((fun kv => (kf kv.1, kv)) <$> l) ∪ acc.
Proof.
  revert acc. induction l as [|[k v] l IH]; intros acc Hnd Hfresh; cbn [foldl].
  - by rewrite fmap_nil, list_to_map_nil, map_empty_union.
  - rewrite !fmap_cons in Hnd. apply NoDup_cons in Hnd as [Hk Hnd].
    apply Forall_cons in Hfresh as [Hacc Hfresh]. cbn [fst snd] in Hacc, Hk |- *.
    unfold hm_insert at 2. rewrite Hacc, fmap_cons. cbn [list_to_map foldr fst snd].
    rewrite IH; [|done|].
    + rewrite <-insert_union_r, insert_union_l; [done|].
      apply not_elem_of_list_to_map_1. by rewrite hm_entries_fst.
    + apply Forall_forall. intros [k' v'] Hin. cbn [fst]. rewrite lookup_insert_ne.
      * by eapply Forall_forall in Hfresh; [|exact Hin].
      * intros Heq. apply Hk. rewrite Heq. apply list_elem_of_fmap. exists k'. split; [done|].
        apply list_elem_of_fmap. by exists (k', v').
Qed.

(** On a coherent map, filing each stored entry under its key's class gives
    back the map's own entry list. *)
Lemma hm_coherent_entries (m : gmap KC (K * V)) :
  hm_keys_coherent kf m -> (fun kv => (kf kv.1, kv)) <$> (snd <$> map_to_list m) = map_to_list m.
Proof.
  unfold hm_keys_coherent. rewrite map_Forall_to_list. generalize (map_to_list m) as l.
  induction l as [|[c kv] l IH]; intros Hl; [done|].
  apply Forall_cons in Hl as [Hc Hl]. rewrite !fmap_cons. cbn [fst snd] in Hc |- *.
  by rewrite Hc, IH.
Qed.

(** Re-inserting a coherent map's entries in any order rebuilds it. *)
Lemma foldl_hm_insert_perm (l : list (K * V)) (m : gmap KC (K * V)) :
  hm_keys_coherent kf m -> l ≡ₚ snd <$> map_to_list m ->
  foldl (fun m kv => hm_insert kf kv.1 kv.2 m) ∅ l = m.
Proof.
  intros Hc Hp.
  assert (Hp' : (fun kv => (kf kv.1, kv)) <$> l ≡ₚ map_to_list m)
    by (rewrite Hp; by rewrite hm_coherent_entries).
  destruct (perm_map_to_list _ m Hp') as [Hnd Hm].
  rewrite foldl_hm_insert, Hm, map_union_empty; [done| |by apply Forall_forall].
  by rewrite hm_entries_fst in Hnd.
Qed.
End KeyedHashMapLemmas.

#[export] Hint Rewrite @lookup_extend : projector_rw.
#[export] Hint Resolve hm_entry_or_default_coherent hm_get_mut_modify_coherent
  hm_insert_coherent : projector.
