(* ===== verification/Path.v ===== *)
(** * Paths: Rust's [std::path] on Unix

    The store is a [HashMap<PathBuf, _>], and [PathBuf]'s [Eq] and [Hash]
    compare the sequence of [Component]s of a path, not its bytes
    (["/foo/"], ["/foo"] and ["//foo/."] are one key).  This file models a
    path by that sequence: [components] splits a raw path string as
    [Path::components] does on Unix, [parent] is [Path::parent] and
    [push] is [PathBuf::push]; [ancestors] is the chain of [parent]s that
    the loops of [projector.rs] walk, and [PathBufMap] is a
    [HashMap<PathBuf, V>]. *)

From S2P Require Import Prelude.

(** ** Components and paths *)

(** [std::path::Component], without the Windows-only [Prefix]. *)
Inductive Component : Type :=
| RootDir
| CurDir
| ParentDir
| Normal (s : string).

#[export] Instance Component_eq_dec : EqDecision Component.
Proof. solve_decision. Defined.

#[export] Instance Component_countable : Countable Component.
Proof.
  refine (inj_countable'
    (fun c => match c with
              | RootDir => inr 0 | CurDir => inr 1 | ParentDir => inr 2
              | Normal s => inl s end)
    (fun x : string + nat => match x with
              | inl s => Normal s | inr 0 => RootDir | inr 1 => CurDir
              | inr _ => ParentDir end) _).
  by intros [].
Defined.

(** A [PathBuf] as the code holds it: its raw bytes. *)
Abbreviation PathBuf := string (only parsing).

(** A path as [Eq] and [Hash] see it: the list its [components] yields. *)
Abbreviation Path := (list Component).

(** [HashMap<PathBuf, V>].  Its [get], [entry] and [get_mut] find an entry
    by the [Eq] and [Hash] of [PathBuf], that is by [components], and an
    entry keeps the [PathBuf] it was created with (which [serde] writes
    back); so the map is a [gmap] on [Path] whose values pair that key
    with the value.  The [HashMap] calls of the code on it are the
    [Prelude]'s [hm_entry_or_default], [hm_get_mut_modify] and [hm_insert]
    with [components] as the key class. *)
Abbreviation PathBufMap V := (gmap Path (PathBuf * V)).

(** ** [Path::components] *)

(** The byte strings between the separators ['/'], empty ones included. *)
Fixpoint split_sep (s : string) : list string :=
  match s with
  | EmptyString => [EmptyString]
  | String c s' =>
      if decide (c = "/"%char) then EmptyString :: split_sep s'
      else match split_sep s' with
           | seg :: rest => String c seg :: rest
           | [] => [String c EmptyString]
           end
  end.

(** [Components::parse_single_component]: empty segments and ["."] are
    skipped, [".."] is kept as [ParentDir]. *)
Definition parse_single_component (seg : string) : option Component :=
  if decide (seg = ""%string) then None
  else if decide (seg = "."%string) then None
  else if decide (seg = ".."%string) then Some ParentDir
  else Some (Normal seg).

(** [Path::components]: a leading ['/'] gives [RootDir]; a relative path
    whose first segment is ["."] keeps it as [CurDir] ([include_cur_dir]);
    the other segments go through [parse_single_component]. *)
Definition components (s : PathBuf) : Path :=
  match s with
  | String c _ =>
      if decide (c = "/"%char) then RootDir :: omap parse_single_component (split_sep s)
      else match split_sep s with
           | seg :: rest =>
               if decide (seg = "."%string) then CurDir :: omap parse_single_component rest
               else omap parse_single_component (seg :: rest)
           | [] => []
           end
  | EmptyString => []
  end.

(** ** [Path::parent]

    [parent] removes the last component when it is [Normal], [CurDir] or
    [ParentDir]; a path that is empty or ends at the root has none. *)
Definition parent (p : Path) : option Path :=
  match last p with
  | Some (Normal _) | Some CurDir | Some ParentDir => Some (removelast p)
  | Some RootDir | None => None
  end.

(** The reference: the ancestors of a path, nearest first, by structural
    recursion on the reversed component list. *)
Fixpoint ancestors_rev (r : list Component) : list Path :=
  match r with
  | [] => [[]]
  | RootDir :: _ => [rev r]
  | _ :: r' => rev r :: ancestors_rev r'
  end.

Definition ancestors (p : Path) : list Path := ancestors_rev (rev p).

(** ** [PathBuf::push] on Unix

    An absolute argument replaces the buffer; otherwise a ['/'] is added
    first when the buffer is non-empty and does not already end with one. *)
Definition has_root (s : PathBuf) : bool :=
  match s with String c _ => bool_decide (c = "/"%char) | EmptyString => false end.

Definition need_sep (s : PathBuf) : bool :=
  match last (list_ascii_of_string s) with
  | Some c => bool_decide (c ≠ "/"%char)
  | None => false
  end.

Definition push (self path : PathBuf) : PathBuf :=
  if has_root path then path
  else if need_sep self then (self ++ "/" ++ path)%string
  else (self ++ path)%string.

(** ** Well-formed paths: what [components] produces *)

Definition normal_ok (s : string) : bool :=
  bool_decide (s ≠ ""%string) && bool_decide (s ≠ "."%string)
  && bool_decide (s ≠ ".."%string) && bool_decide ("/"%char ∉ list_ascii_of_string s).

Definition body_component_ok (c : Component) : bool :=
  match c with
  | Normal s => normal_ok s
  | ParentDir => true
  | RootDir | CurDir => false
  end.

(** The components after a leading [RootDir] or [CurDir]. *)
Definition path_body (p : Path) : Path :=
  match p with
  | RootDir :: r | CurDir :: r => r
  | _ => p
  end.

Definition path_wf (p : Path) : bool := forallb body_component_ok (path_body p).

(** ** Lemmas on [parent] *)

Lemma parent_snoc (q : Path) (c : Component) :
  parent (q ++ [c]) = match c with RootDir => None | _ => Some q end.
Proof. unfold parent. rewrite last_snoc, removelast_last. by destruct c. Qed.

Lemma parent_nil : parent [] = None.
Proof. done. Qed.

Lemma parent_length (p q : Path) : parent p = Some q -> length p = S (length q).
Proof.
  destruct p as [|c p'] using rev_ind; [done|].
  rewrite parent_snoc, length_app. destruct c; intros [= <-]; simpl; lia.
Qed.

Lemma parent_prefix (p q : Path) : parent p = Some q -> q `prefix_of` p.
Proof.
  destruct p as [|c p'] using rev_ind; [done|].
  rewrite parent_snoc. destruct c; intros [= <-]; by eexists.
Qed.

#[export] Hint Rewrite parent_snoc : projector_rw.

(** ** The ancestor chain *)

(** One unfolding of the chain: a path, then the chain of its parent. *)
Lemma ancestors_unfold (p : Path) :
  ancestors p = p :: match parent p with Some q => ancestors q | None => [] end.
Proof.
  destruct p as [|c q] using rev_ind; [done|].
  unfold ancestors. rewrite parent_snoc, rev_unit. simpl.
  destruct c; by rewrite ?rev_unit, ?rev_involutive.
Qed.

Lemma ancestors_prefix (p q : Path) : q ∈ ancestors p -> q `prefix_of` p.
Proof.
  revert q. induction p as [|c p IH] using rev_ind; intros q.
  - by intros ->%list_elem_of_singleton.
  - rewrite ancestors_unfold, parent_snoc, elem_of_cons.
    intros [-> | Hq]; [done|]. destruct c; try by apply elem_of_nil in Hq.
    all: apply prefix_app_r; by apply IH.
Qed.

Lemma prefix_snoc_inv (q p : Path) (c : Component) :
  q `prefix_of` p ++ [c] -> q = p ++ [c] \/ q `prefix_of` p.
Proof.
  intros [k Hk]. destruct k as [|x k _] using rev_ind.
  - left. by rewrite Hk, app_nil_r.
  - right. rewrite app_assoc in Hk. apply app_inj_tail in Hk as [-> _]. by eexists.
Qed.

(** A path strictly above [p] on its chain is shorter. *)
Lemma ancestors_strict (p x : Path) : x ∈ ancestors p -> x <> p -> length x < length p.
Proof.
  intros Hx Hne. apply ancestors_prefix in Hx.
  pose proof (prefix_length _ _ Hx).
  destruct (decide (length x = length p)); [|lia].
  destruct Hne. apply prefix_length_eq; [done | lia].
Qed.

(** ** Well-formedness *)

Lemma path_wf_body (r : Path) : forallb body_component_ok r = true -> path_wf r = true.
Proof. destruct r as [|[] r]; simpl; done. Qed.

Lemma path_body_snoc (q : Path) (c : Component) :
  q ≠ [] -> path_body (q ++ [c]) = path_body q ++ [c].
Proof. by destruct q as [|[] q]. Qed.

Lemma path_wf_snoc (q : Path) (c : Component) :
  path_wf (q ++ [c]) = true ->
  path_wf q = true /\ (c = RootDir -> q = []) /\ (c = CurDir -> q = []).
Proof.
  destruct (decide (q = [])) as [->|Hq]; [done|].
  unfold path_wf. rewrite path_body_snoc, forallb_app by done. simpl.
  intros [Hq' Hc]%andb_prop. split; [done|]. by destruct c.
Qed.

Lemma split_sep_no_sep (s : string) :
  Forall (fun seg => "/"%char ∉ list_ascii_of_string seg) (split_sep s).
Proof.
  induction s as [|c s IH]; simpl.
  - repeat constructor. by intros ?%elem_of_nil.
  - case_decide; [constructor; [by intros ?%elem_of_nil | done]|].
    destruct (split_sep s) as [|seg rest]; simpl.
    + repeat constructor. by intros [? | ?%elem_of_nil]%elem_of_cons.
    + inversion IH as [|? ? Hseg Hrest]; subst. constructor; [|done].
      by intros [? | ?]%elem_of_cons.
Qed.

Lemma parse_single_component_ok (seg : string) (c : Component) :
  "/"%char ∉ list_ascii_of_string seg ->
  parse_single_component seg = Some c -> body_component_ok c = true.
Proof.
  unfold parse_single_component. intros Hsep.
  repeat case_decide; intros [= <-]; simpl; [done|].
  unfold normal_ok. by rewrite !bool_decide_eq_true_2.
Qed.

Lemma omap_parse_ok (segs : list string) :
  Forall (fun seg => "/"%char ∉ list_ascii_of_string seg) segs ->
  forallb body_component_ok (omap parse_single_component segs) = true.
Proof.
  intros Hsegs. apply forallb_forall. intros c Hc. apply list_elem_of_In in Hc.
  apply list_elem_of_omap in Hc as (seg & Hin & Hparse).
  eapply parse_single_component_ok; [|done]. rewrite Forall_forall in Hsegs. by apply Hsegs.
Qed.

(** ** Well-formedness of parsed paths *)

(** Every path [components] produces is well formed: [RootDir] and
    [CurDir] only in front, every [Normal] segment non-empty, without ['/']
    and neither ["."] nor [".."]. *)
Theorem components_wf (s : PathBuf) : path_wf (components s) = true.
Proof.
  pose proof (split_sep_no_sep s) as Hsegs.
  destruct s as [|c s']; [done|]. unfold components.
  case_decide; [by apply omap_parse_ok|].
  destruct (split_sep (String c s')) as [|seg rest]; [done|].
  inversion Hsegs; subst.
  case_decide; [by apply omap_parse_ok|]. by apply path_wf_body, omap_parse_ok.
Qed.

Lemma parent_wf (p q : Path) : path_wf p = true -> parent p = Some q -> path_wf q = true.
Proof.
  destruct p as [|c p'] using rev_ind; [done|].
  rewrite parent_snoc. intros [? _]%path_wf_snoc. by destruct c; intros [= <-].
Qed.

(** A well-formed path other than [""] and ["/"] has a parent. *)
Lemma parent_wf_Some (p : Path) :
  path_wf p = true -> p <> [] -> p <> [RootDir] -> exists q, parent p = Some q.
Proof.
  destruct p as [|c p'] using rev_ind; [done|].
  intros (_ & Hr & _)%path_wf_snoc _ Hne. rewrite parent_snoc.
  destruct c; [exfalso; apply Hne; by rewrite Hr|eauto..].
Qed.

(** Conversely to [ancestors_prefix], every prefix of a well-formed path
    is on its chain, except the empty path under a root. *)
Theorem ancestors_complete (p q : Path) :
  path_wf p = true -> q `prefix_of` p -> (q = [] -> head p <> Some RootDir) ->
  q ∈ ancestors p.
Proof.
  revert q. induction p as [|c p IH] using rev_ind; intros q Hwf Hq Hroot.
  - apply prefix_nil_inv in Hq as ->. by apply list_elem_of_singleton.
  - rewrite ancestors_unfold, parent_snoc, elem_of_cons.
    apply path_wf_snoc in Hwf as (Hwf & HR & _).
    apply prefix_snoc_inv in Hq as [-> | Hq]; [by left|].
    destruct c; [| right; apply IH; [done | done | intros ->; destruct p; naive_solver] ..].
    rewrite (HR eq_refl) in Hq. apply prefix_nil_inv in Hq as ->.
    rewrite (HR eq_refl) in Hroot. by destruct Hroot.
Qed.
