(* ===== verification/ProjectorRs.v ===== *)
(** * ProjectorRs: [src/projector.rs] in memory

    [struct Data] (the persisted [HashMap<PathBuf, HashMap<String, String>>])
    and [struct Projector] (the config path, the working directory and the
    data) as records, and the four in-memory methods of [impl Projector]
    transcribed line by line: [get_value_all], [get_value], [set_value],
    [remove_value].  The two [while let Some(p) = curr] loops are the
    fuelled [collect_paths] and [get_value_loop]; the [HashMap] calls are
    the [Prelude]'s [extend], [hm_entry_or_default] and
    [hm_get_mut_modify].  The file's [mod test] is [get_data] and the
    boolean tests [test_get_value], [test_set_value] and
    [test_delete_value].  The theorems relate the two readers to a
    nearest-first resolution over the ancestor chain ([resolve]), the
    abstract meaning of the store, and state how the writers change it. *)

From S2P Require Import Prelude Path.

(** ** Data *)

(** [HashMap<String, String>]: the scope of one directory. *)
Abbreviation Scope := (gmap string string).

(** [struct Data { pub projector: HashMap<PathBuf, HashMap<String, String>> }] *)
Record Data : Type := mkData {
  projector : PathBufMap Scope
}.

(** [pub struct Projector { pub config: PathBuf, pwd: PathBuf, data: Data }] *)
Record Projector : Type := mkProjector {
  config : PathBuf;
  pwd : PathBuf;
  data : Data
}.

(** [self.data.projector.get(p)] for a path given by its components. *)
Definition scope_at (d : Data) (p : Path) : option Scope := snd <$> projector d !! p.

(** The fuel of the two loops: one more than the components of [pwd]. *)
Definition walk_fuel (self : Projector) : nat := S (length (components (pwd self))).

(** ** [get_value_all] *)

(**     [let mut curr = Some(pwd); let mut paths = vec![];
     while let Some(p) = curr { paths.push(p); curr = p.parent(); }]
    with a fuel bound on the number of iterations; [None] is "out of
    fuel". *)
Fixpoint collect_paths (fuel : nat) (curr : option Path) (paths : list Path)
    : option (list Path) :=
  match curr with
  | None => Some paths
  | Some p =>
      match fuel with
      | O => None
      | S fuel' => collect_paths fuel' (parent p) (paths ++ [p])
      end
  end.


(** [for path in paths.into_iter().rev() {
       self.data.projector.get(path).map(|map| out.extend(map.iter())); }] *)
Definition merge_step (d : Data) (out : Scope) (path : Path) : Scope :=
  match scope_at d path with
  | Some map => extend out map
  | None => out
  end.

(** [let mut curr = Some(self.pwd.as_path()); let mut paths = vec![];]
    the loop above, then [let mut out = HashMap::new();] and the loop
    over [paths.into_iter().rev()]. *)
Definition get_value_all (self : Projector) : Scope :=
  let curr := Some (components (pwd self)) in
  let paths := default [] (collect_paths (walk_fuel self) curr []) in
  foldl (merge_step (data self)) ∅ (rev paths).

(** ** [get_value] *)

(** [while let Some(p) = curr { if let Some(dir) = self.data.projector.get(p) {
       if let Some(value) = dir.get(key) { out = Some(value); break; } }
       curr = p.parent(); }]; the outer [None] is "out of fuel". *)
Fixpoint get_value_loop (d : Data) (key : string) (fuel : nat) (curr : option Path)
    : option (option string) :=
  match curr with
  | None => Some None
  | Some p =>
      match fuel with
      | O => None
      | S fuel' =>
          match scope_at d p with
          | Some dir =>
              match dir !! key with
              | Some value => Some (Some value)
              | None => get_value_loop d key fuel' (parent p)
              end
          | None => get_value_loop d key fuel' (parent p)
          end
      end
  end.

Definition get_value (self : Projector) (key : string) : option string :=
  default None (get_value_loop (data self) key (walk_fuel self) (Some (components (pwd self)))).

(** ** [set_value] and [remove_value] *)

(** [self.data.projector.entry(self.pwd.to_owned()).or_default()
       .insert(String::from(key), String::from(value));] *)
Definition set_value (self : Projector) (key value : string) : Projector :=
  mkProjector (config self) (pwd self)
    (mkData (hm_entry_or_default components (pwd self) (insert key value)
               (projector (data self)))).

(** [self.data.projector.get_mut(&self.pwd).map(|x| { x.remove(key); });] *)
Definition remove_value (self : Projector) (key : string) : Projector :=
  mkProjector (config self) (pwd self)
    (mkData (hm_get_mut_modify components (pwd self) (delete key)
               (projector (data self)))).

(** ** The abstract resolution *)

(** The value of [key] in the first directory of [paths] whose scope has
    it: the nearest-wins reading of the store, given a chain nearest
    first. *)
Fixpoint resolve (d : Data) (key : string) (paths : list Path) : option string :=
  match paths with
  | [] => None
  | p :: ps =>
      match scope_at d p ≫= lookup key with
      | Some v => Some v
      | None => resolve d key ps
      end
  end.

(** The store invariant: every entry is filed under the components of the
    [PathBuf] it keeps, so re-reading the key after a save finds it again. *)
Definition data_wf (d : Data) : Prop := hm_keys_coherent components (projector d).

#[export] Instance data_wf_dec (d : Data) : Decision (data_wf d).
Proof. unfold data_wf. apply _. Defined.

(** A projector at another working directory on the same data. *)
Definition at_dir (self : Projector) (dir : PathBuf) : Projector :=
  mkProjector (config self) dir (data self).

(** ** The unit tests of [projector.rs] *)

(** [fn get_data() -> Data] of the test module. *)
Definition get_data : Data :=
  mkData (list_to_map [
    (components "/", ("/", list_to_map [("foo", "bar1"); ("bar", "bazz")]));
    (components "/foo", ("/foo", list_to_map [("foo", "bar2")]));
    (components "/foo/bar", ("/foo/bar", list_to_map [("foo", "bar3")]));
    (components "/foo/bar/baz", ("/foo/bar/baz", list_to_map [("foo", "bar3")]))])%string.

(** The [Projector] each test builds:
    [Projector { data: get_data(), config: "/foo/bar", pwd: "/foo/bar" }]. *)
Definition test_projector : Projector := mkProjector "/foo/bar" "/foo/bar" get_data.

(** [#[test] fn get_value()]: its three [assert_eq!]s, in order. *)
Definition test_get_value : bool :=
  let proj := test_projector in
  bool_decide (get_value proj "foo" = Some "bar3"%string) &&
  bool_decide (get_value proj "bar" = Some "bazz"%string) &&
  bool_decide (get_value proj "notehu" = None).

(** [#[test] fn set_value()]. *)
Definition test_set_value : bool :=
  let proj := test_projector in
  bool_decide (get_value proj "foo" = Some "bar3"%string) &&
  let proj := set_value proj "foo" "hello, fem" in
  bool_decide (get_value proj "foo" = Some "hello, fem"%string).

(** [#[test] fn delete_value()]. *)
Definition test_delete_value : bool :=
  let proj := test_projector in
  bool_decide (get_value proj "foo" = Some "bar3"%string) &&
  let proj := remove_value proj "foo" in
  bool_decide (get_value proj "foo" = Some "bar2"%string).

(** The store of the spec's override scenario: ["/"] has [k = "A"] and
    ["/x"] has [k = "B"]. *)
Definition override_data : Data :=
  mkData (list_to_map [
    (components "/", ("/", {["k" := "A"]}));
    (components "/x", ("/x", {["k" := "B"]}))])%string.

(** ** Lemmas *)

Lemma get_value_loop_None (d : Data) key fuel : get_value_loop d key fuel None = Some None.
Proof. by destruct fuel. Qed.

Lemma resolve_cons (d : Data) key p ps :
  resolve d key (p :: ps) =
  match scope_at d p ≫= lookup key with Some v => Some v | None => resolve d key ps end.
Proof. done. Qed.

(** [resolve] only reads the scopes of the listed paths. *)
Lemma resolve_ext (d1 d2 : Data) key ps :
  (forall p, p ∈ ps -> scope_at d1 p ≫= lookup key = scope_at d2 p ≫= lookup key) ->
  resolve d1 key ps = resolve d2 key ps.
Proof.
  induction ps as [|p ps IH]; intros Hps; [done|]. rewrite !resolve_cons.
  rewrite Hps by (apply elem_of_cons; by left).
  rewrite IH; [done|]. intros q Hq. apply Hps, elem_of_cons. by right.
Qed.

Lemma lookup_merge_step (d : Data) (out : Scope) p key :
  merge_step d out p !! key =
  match scope_at d p ≫= lookup key with Some v => Some v | None => out !! key end.
Proof. unfold merge_step. destruct (scope_at d p) as [m|]; [apply lookup_extend | done]. Qed.

(** The fold of [get_value_all] over the chain read root first. *)
Lemma merge_fold_lookup (d : Data) (out : Scope) ps key :
  foldl (merge_step d) out (rev ps) !! key =
  match resolve d key ps with Some v => Some v | None => out !! key end.
Proof.
  induction ps as [|p ps IH]; [done|].
  cbn [rev]. rewrite foldl_app. cbn [foldl resolve].
  rewrite lookup_merge_step, IH. by destruct (scope_at d p ≫= lookup key).
Qed.

Lemma scope_at_set_value (P : Projector) key value q :
  scope_at (data (set_value P key value)) q =
  if decide (components (pwd P) = q)
  then Some (<[key:=value]> (default ∅ (scope_at (data P) (components (pwd P)))))
  else scope_at (data P) q.
Proof. apply hm_lookup_entry_or_default. Qed.

Lemma scope_at_remove_value (P : Projector) key q :
  scope_at (data (remove_value P key)) q =
  if decide (components (pwd P) = q)
  then delete key <$> scope_at (data P) (components (pwd P))
  else scope_at (data P) q.
Proof. apply hm_lookup_get_mut_modify. Qed.

Lemma bind_delete_lookup (o : option Scope) key : (delete key <$> o) ≫= lookup key = None.
Proof. destruct o; simpl; [apply lookup_delete_eq | done]. Qed.

(** A path strictly above [p] on its chain is not [p]. *)
Lemma ancestors_parent_ne (p q r : Path) : parent p = Some q -> r ∈ ancestors q -> p <> r.
Proof.
  intros Hq Hr ->. apply parent_length in Hq.
  apply ancestors_prefix, prefix_length in Hr. lia.
Qed.

(** A write at [x] is what a directory below [x] resolves when no
    directory strictly between them defines the key. *)
Lemma resolve_set_value_inherit (P : Projector) key value (p : Path) :
  components (pwd P) ∈ ancestors p ->
  Forall (fun q => length (components (pwd P)) < length q -> scope_at (data P) q ≫= lookup key = None)
    (ancestors p) ->
  resolve (data (set_value P key value)) key (ancestors p) = Some value.
Proof.
  induction p as [|c p IH] using rev_ind; intros Hx Hnone.
  - simpl in Hx. apply list_elem_of_singleton in Hx.
    rewrite ancestors_unfold, resolve_cons, scope_at_set_value, decide_True by done.
    simpl. by rewrite lookup_insert_eq.
  - rewrite Forall_forall in Hnone.
    assert (Hs : p ++ [c] ∈ ancestors (p ++ [c])) by (rewrite ancestors_unfold; apply list_elem_of_here).
    rewrite ancestors_unfold, resolve_cons, scope_at_set_value.
    case_decide as Hxp; [simpl; by rewrite lookup_insert_eq|].
    rewrite (Hnone _ Hs) by (by apply ancestors_strict).
    rewrite ancestors_unfold, elem_of_cons in Hx. destruct Hx as [Hx|Hx]; [done|].
    rewrite parent_snoc in Hx |- *. destruct c; try by apply elem_of_nil in Hx.
    all: apply IH; [done|]; apply Forall_forall; intros q Hq; apply Hnone;
      rewrite ancestors_unfold, parent_snoc; by apply list_elem_of_further.
Qed.

#[export] Hint Rewrite get_value_loop_None resolve_cons : projector_rw.

(** ** The ancestor loop of [get_value_all] *)

(** The ancestor loop with enough fuel appends the chain. *)
Lemma collect_paths_ancestors (fuel : nat) (p : Path) (acc : list Path) :
  length p < fuel -> collect_paths fuel (Some p) acc = Some (acc ++ ancestors p).
Proof.
  revert p acc. induction fuel as [|fuel IH]; intros p acc Hfuel; [lia|].
  simpl. rewrite (ancestors_unfold p). destruct (parent p) as [q|] eqn:Hp.
  - apply parent_length in Hp as Hlen. rewrite IH by lia. by rewrite <- app_assoc.
  - by destruct fuel.
Qed.

(** C8: termination of the ancestor loop: with more fuel than the path has
    components, [collect_paths] runs to the end (it never reports running
    out of fuel) and appends exactly the ancestor chain, nearest first; so
    any fuel above the bound gives the same result. *)
Theorem collect_paths_fuel (fuel : nat) (p : Path) (acc : list Path) :
  length p < fuel -> collect_paths fuel (Some p) acc = Some (acc ++ ancestors p).
Proof. apply collect_paths_ancestors. Qed.

(** C10: every prefix of the working directory (except the empty path
    under a root) is one of the paths the ancestor loop collects, so no
    scope that should be visible is skipped. *)
Theorem collect_paths_visits_prefixes (s : PathBuf) (q : Path) :
  q `prefix_of` components s -> (q = [] -> head (components s) <> Some RootDir) ->
  q ∈ default [] (collect_paths (S (length (components s))) (Some (components s)) []).
Proof.
  intros Hq Hroot. rewrite collect_paths_ancestors by lia. simpl.
  apply ancestors_complete; [apply components_wf | done | done].
Qed.


(** ** The loop of [get_value] terminates *)

Lemma get_value_loop_resolve (d : Data) (key : string) (fuel : nat) (p : Path) :
  length p < fuel -> get_value_loop d key fuel (Some p) = Some (resolve d key (ancestors p)).
Proof.
  revert p. induction fuel as [|fuel IH]; intros p Hfuel; [lia|].
  rewrite (ancestors_unfold p), resolve_cons. simpl.
  destruct (parent p) as [q|] eqn:Hq.
  - apply parent_length in Hq as Hlen.
    destruct (scope_at d p) as [dir|]; simpl; [destruct (dir !! key)|]; rewrite ?IH by lia; done.
  - destruct (scope_at d p) as [dir|]; simpl; [destruct (dir !! key)|];
      rewrite ?get_value_loop_None; done.
Qed.

(** ** Resolution: the abstract meaning of the two readers *)

Lemma get_value_resolve (P : Projector) (key : string) :
  get_value P key = resolve (data P) key (ancestors (components (pwd P))).
Proof. unfold get_value, walk_fuel. by rewrite get_value_loop_resolve by lia. Qed.

Lemma get_value_all_resolve (P : Projector) (key : string) :
  get_value_all P !! key = resolve (data P) key (ancestors (components (pwd P))).
Proof.
  unfold get_value_all, walk_fuel. rewrite collect_paths_ancestors by lia. simpl.
  rewrite merge_fold_lookup. by destruct (resolve _ _ _).
Qed.

(** C2: [get_value] returns the value of [key] in the nearest directory,
    from [pwd] up to the root, whose scope defines it. *)
Theorem get_value_spec (P : Projector) (key : string) :
  get_value P key = resolve (data P) key (ancestors (components (pwd P))).
Proof. apply get_value_resolve. Qed.

(** C3: the map [get_value_all] builds gives every key the value of the
    nearest directory that defines it, and has no other key. *)
Theorem get_value_all_spec (P : Projector) (key : string) :
  get_value_all P !! key = resolve (data P) key (ancestors (components (pwd P))).
Proof. apply get_value_all_resolve. Qed.

(** C1: the consistency law of the spec: looking one key up with
    [get_value] agrees with the merged map of [get_value_all]. *)
Theorem get_value_consistent (P : Projector) (key : string) :
  get_value P key = get_value_all P !! key.
Proof. by rewrite get_value_resolve, get_value_all_resolve. Qed.

(** ** Writes and removals *)

(** C4: write-then-read: after [set_value key value], [get_value key] in
    the same directory returns [value]. *)
Theorem set_value_get_value (P : Projector) (key value : string) :
  get_value (set_value P key value) key = Some value.
Proof.
  rewrite get_value_resolve, ancestors_unfold, resolve_cons. simpl pwd.
  rewrite scope_at_set_value, decide_True by done. simpl. by rewrite lookup_insert_eq.
Qed.

(** C5: after [remove_value key], [get_value key] falls through to what
    the parent directory resolves, or to nothing at the root. *)
Theorem remove_value_falls_through (P : Projector) (key : string) :
  get_value (remove_value P key) key =
  match parent (components (pwd P)) with
  | Some q => resolve (data P) key (ancestors q)
  | None => None
  end.
Proof.
  rewrite get_value_resolve, ancestors_unfold, resolve_cons. simpl pwd.
  rewrite scope_at_remove_value, decide_True by done.
  rewrite bind_delete_lookup.
  destruct (parent (components (pwd P))) as [q|] eqn:Hq; [|done].
  apply resolve_ext. intros r Hr. rewrite scope_at_remove_value, decide_False; [done|].
  by eapply ancestors_parent_ne.
Qed.

(** ** Non-interference of writes *)

Lemma bind_lookup_insert_ne (o : option Scope) key value k :
  key <> k -> Some (<[key:=value]> (default ∅ o)) ≫= lookup k = o ≫= lookup k.
Proof. intros Hk. simpl. rewrite lookup_insert_ne by done. by destruct o. Qed.

(** C6: a write in directory [x] does not change what any directory [y]
    resolves, unless [x] is on the chain of [y] ([x] is [y] or one of its
    ancestors). *)
Theorem set_value_other_dir (P : Projector) (key value : string) (dir : PathBuf) (k : string) :
  ~ components (pwd P) `prefix_of` components dir ->
  get_value (at_dir (set_value P key value) dir) k = get_value (at_dir P dir) k.
Proof.
  intros Hnot. rewrite !get_value_resolve. apply resolve_ext. intros r Hr.
  unfold at_dir. cbn [data]. rewrite scope_at_set_value, decide_False; [done|].
  intros <-. by apply Hnot, ancestors_prefix.
Qed.

(** C7: a write of [key] does not change what any directory resolves for
    another key, even where it creates the scope. *)
Theorem set_value_other_key (P : Projector) (key value : string) (dir : PathBuf) (k : string) :
  key <> k ->
  get_value (at_dir (set_value P key value) dir) k = get_value (at_dir P dir) k.
Proof.
  intros Hk. rewrite !get_value_resolve. apply resolve_ext. intros r _.
  unfold at_dir. cbn [data]. rewrite scope_at_set_value. case_decide; [|done]. subst r.
  by apply bind_lookup_insert_ne.
Qed.

(** C11: the other half of non-interference: a write in [x] is seen from
    every directory [y] below [x] that has no nearer definition of the
    key. *)
Theorem set_value_descendant (P : Projector) (key value : string) (dir : PathBuf) :
  components (pwd P) ∈ ancestors (components dir) ->
  Forall (fun q => length (components (pwd P)) < length q -> scope_at (data P) q ≫= lookup key = None)
    (ancestors (components dir)) ->
  get_value (at_dir (set_value P key value) dir) key = Some value.
Proof. intros Hx Hnone. rewrite get_value_resolve. by apply resolve_set_value_inherit. Qed.

(** ** The store invariant *)

(** ** The unit tests of [projector.rs] and the spec's scenarios *)

(** The spec's override scenario: from ["/x/y"] both readers see the nearer
    ["B"]; from ["/z"] the root's ["A"]. *)
Example override_ordering :
  get_value (mkProjector "/cfg" "/x/y" override_data) "k" = Some "B"%string /\
  get_value_all (mkProjector "/cfg" "/x/y" override_data) !! "k"%string = Some "B"%string /\
  get_value (mkProjector "/cfg" "/z" override_data) "k" = Some "A"%string.
Proof. vm_compute. repeat split. Qed.

(** ** Witnesses *)

Lemma collect_paths_fuel_witness :
  length (components "/foo/bar") < 4 /\
  collect_paths 4 (Some (components "/foo/bar")) [] = Some ([] ++ ancestors (components "/foo/bar")).
Proof.
  assert (H : length (components "/foo/bar") < 4) by (vm_compute; lia).
  split; [exact H | exact (collect_paths_fuel 4 _ [] H)].
Defined.

Lemma collect_paths_visits_prefixes_witness :
  [RootDir; Normal "a"] `prefix_of` components "/a/b" /\
  ([RootDir; Normal "a"] = [] -> head (components "/a/b") <> Some RootDir) /\
  [RootDir; Normal "a"] ∈ default [] (collect_paths 3 (Some (components "/a/b")) []).
Proof.
  assert (H1 : [RootDir; Normal "a"] `prefix_of` components "/a/b")
    by (apply (bool_decide_unpack _); vm_compute; reflexivity).
  assert (H2 : [RootDir; Normal "a"] = [] -> head (components "/a/b") <> Some RootDir)
    by (intros H; discriminate H).
  split; [exact H1 | split; [exact H2 | exact (collect_paths_visits_prefixes "/a/b" _ H1 H2)]].
Defined.


Lemma set_value_other_dir_witness :
  ~ components "/x" `prefix_of` components "/y" /\
  get_value (at_dir (set_value (mkProjector "/cfg" "/x" override_data) "k" "C") "/y") "k"
  = get_value (at_dir (mkProjector "/cfg" "/x" override_data) "/y") "k".
Proof.
  assert (H : ~ components "/x" `prefix_of` components "/y")
    by (apply (bool_decide_unpack _); vm_compute; reflexivity).
  split; [exact H | exact (set_value_other_dir (mkProjector "/cfg" "/x" override_data) "k" "C" "/y" "k" H)].
Defined.

Lemma set_value_other_key_witness :
  "j"%string <> "k"%string /\
  get_value (at_dir (set_value (mkProjector "/cfg" "/x" override_data) "j" "C") "/x/y") "k"
  = get_value (at_dir (mkProjector "/cfg" "/x" override_data) "/x/y") "k".
Proof.
  assert (H : "j"%string <> "k"%string) by (apply (bool_decide_unpack _); vm_compute; reflexivity).
  split; [exact H | exact (set_value_other_key (mkProjector "/cfg" "/x" override_data) "j" "C" "/x/y" "k" H)].
Defined.

Lemma set_value_descendant_witness :
  components "/x" ∈ ancestors (components "/x/y/z") /\
  Forall (fun q => length (components "/x") < length q ->
                   scope_at override_data q ≫= lookup "k" = None)
    (ancestors (components "/x/y/z")) /\
  get_value (at_dir (set_value (mkProjector "/cfg" "/x" override_data) "k" "C") "/x/y/z") "k"
  = Some "C"%string.
Proof.
  assert (H1 : components "/x" ∈ ancestors (components "/x/y/z"))
    by (apply (bool_decide_unpack _); vm_compute; reflexivity).
  assert (H2 : Forall (fun q => length (components "/x") < length q ->
                   scope_at override_data q ≫= lookup "k" = None)
                (ancestors (components "/x/y/z")))
    by (apply (bool_decide_unpack _); vm_compute; reflexivity).
  split; [exact H1 | split; [exact H2 |
    exact (set_value_descendant (mkProjector "/cfg" "/x" override_data) "k" "C" "/x/y/z" H1 H2)]].
Defined.
