(* ===== verification/Operation.v ===== *)
(** * The command line: [config.rs]

    [Operation] and its [TryFrom<Vec<String>>] turn the positional words
    of the command line into one of the four operations or an error
    message; [get_config] and [get_pwd] fill in the defaults of the two
    paths; [config_try_from] is [TryFrom<Opts> for Config], which runs the
    three in that order and stops at the first error.  [Opts] (the [clap]
    structure of [src/opts.rs], absent from the sources) is modelled from
    the spec; the process environment is a record of the two queries the
    code makes. *)

From stdpp Require Import pretty.
From S2P Require Import Prelude Path.

(** [pub enum Operation { Print(Option<String>), Add(String, String), Remove(String) }] *)
Inductive Operation : Type :=
| Print (key : option string)
| Add (key value : string)
| Remove (key : string).

#[export] Instance Operation_eq_dec : EqDecision Operation.
Proof. solve_decision. Defined.

(** [anyhow::Error] values are modelled by the message they display. *)
Abbreviation Error := string (only parsing).

(** The three messages of [try_from], with [{}] rendered in decimal. *)
Definition add_arity_error (n : nat) : Error :=
  ("operation add expects 2 arguments, but got " +:+ pretty n)%string.
Definition remove_arity_error (n : nat) : Error :=
  ("operation remove expects 1 arguments, but got " +:+ pretty n)%string.
Definition print_arity_error (n : nat) : Error :=
  ("operation expects 0 or 1 arguments, but got " +:+ pretty n)%string.

(** [impl TryFrom<Vec<String>> for Operation].  [value.get(0).unwrap()]
    is the head of a non-empty list; [drain(1..=2)] yields the second and
    third words; [pop().unwrap()] is the last word (the lengths checked
    before make the [unwrap]s total). *)
Definition try_from (value : list string) : result Operation Error :=
  match value with
  | [] => Ok (Print None)
  | term :: _ =>
      if decide (term = "add"%string) then
        if decide (length value <> 3) then Err (add_arity_error (length value - 1))
        else Ok (Add (nth 1 value ""%string) (nth 2 value ""%string))
      else if decide (term = "rm"%string) then
        if decide (length value <> 2) then Err (remove_arity_error (length value - 1))
        else Ok (Remove (default ""%string (last value)))
      else if decide (1 < length value) then Err (print_arity_error (length value))
      else Ok (Print (Some (default ""%string (last value))))
  end.

(** ** The two paths *)

(** The environment as the code queries it: [std::env::var] ([None] when
    the variable is unset or not Unicode) and [std::env::current_dir]. *)
Record Env : Type := mkEnv {
  env_var : string -> option string;
  current_dir : result PathBuf Error
}.

(** [fn get_config(config: Option<PathBuf>) -> Result<PathBuf>] *)
Definition get_config (env : Env) (config : option PathBuf) : result PathBuf Error :=
  match config with
  | Some v => Ok v
  | None =>
      let location := default "/"%string (env_var env "PROJECTOR_CONFIG_PATH") in
      let location := push location "projector" in
      let location := push location "projector.json" in
      Ok location
  end.

(** [fn get_pwd(pwd: Option<PathBuf>) -> Result<PathBuf>]; the [context]
    message replaces the I/O error's. *)
Definition get_pwd (env : Env) (pwd : option PathBuf) : result PathBuf Error :=
  match pwd with
  | Some pwd => Ok pwd
  | None =>
      match current_dir env with
      | Ok d => Ok d
      | Err _ => Err "unable to get current working dir"%string
      end
  end.

(** ** [Opts] and [Config] *)

(** [struct Opts { args: Vec<String>, pwd: Option<PathBuf>, config: Option<PathBuf> }] *)
Record Opts : Type := mkOpts {
  args : list string;
  opts_pwd : option PathBuf;
  opts_config : option PathBuf
}.

(** [pub struct Config { pub operation: Operation, pub pwd: PathBuf, pub config: PathBuf }] *)
Record Config : Type := mkConfig {
  operation : Operation;
  cfg_pwd : PathBuf;
  cfg_config : PathBuf
}.

(** [impl TryFrom<Opts> for Config]: operation, then config, then pwd. *)
Definition config_try_from (env : Env) (value : Opts) : result Config Error :=
  operation ←? try_from (args value);
  config ←? get_config env (opts_config value);
  pwd ←? get_pwd env (opts_pwd value);
  Ok (mkConfig operation pwd config).

(** ** The unit tests of [config.rs]

    Each test converts an [Opts] without paths with [try_into()?] (an
    error fails the test) and [assert_eq!]s the operation it gets.
    [config_test] is that common body; the tests read the process
    environment, since [get_pwd] asks for [current_dir]. *)
Definition config_test (env : Env) (args : list string) (expected : Operation) : bool :=
  match config_try_from env (mkOpts args None None) with
  | Ok opts => bool_decide (operation opts = expected)
  | Err _ => false
  end.

(** [#[test] fn print_all()] *)
Definition test_print_all (env : Env) : bool := config_test env [] (Print None).

(** [#[test] fn print_key()] *)
Definition test_print_key (env : Env) : bool :=
  config_test env ["foo"%string] (Print (Some "foo"%string)).

(** [#[test] fn add_key_value()] *)
Definition test_add_key_value (env : Env) : bool :=
  config_test env ["add"; "foo"; "bar"]%string (Add "foo" "bar").

(** [#[test] fn rm_key()] *)
Definition test_rm_key (env : Env) : bool :=
  config_test env ["rm"; "foo"]%string (Remove "foo").

(** ** Specification of [try_from] *)

(** The four accepted shapes of the command line. *)
Inductive parses_to : list string -> Operation -> Prop :=
| parses_print_all : parses_to [] (Print None)
| parses_print_key k : k <> "add"%string -> k <> "rm"%string -> parses_to [k] (Print (Some k))
| parses_add k v : parses_to ["add"; k; v]%string (Add k v)
| parses_remove k : parses_to ["rm"; k]%string (Remove k).

(** ** Test environments *)

(** An environment with the variable unset and [/home] as current
    directory. *)
Definition test_env : Env := mkEnv (fun _ => None) (Ok "/home"%string).

Definition home_env : Env :=
  mkEnv (fun v => if decide (v = "PROJECTOR_CONFIG_PATH"%string) then Some "/home/u"%string else None)
        (Ok "/home/u"%string).

(** ** Theorems on [try_from] *)

Lemma parses_to_try_from (args : list string) (op : Operation) :
  parses_to args op -> try_from args = Ok op.
Proof.
  destruct 1 as [| k Hadd Hrm | k v | k]; simpl; [done | | done | done].
  by rewrite !decide_False.
Qed.

(** C12: [try_from] succeeds exactly on the four accepted shapes, with the
    operation the shape names. *)
Theorem try_from_ok_iff (args : list string) (op : Operation) :
  try_from args = Ok op <-> parses_to args op.
Proof.
  split.
  - destruct args as [|term rest]; simpl; [intros [= <-]; constructor|].
    repeat case_decide; intros; simplify_eq; try done.
    + destruct rest as [|k [|v [|]]]; simpl in *; try lia. constructor.
    + destruct rest as [|k [|]]; simpl in *; try lia. constructor.
    + destruct rest; simpl in *; [|lia]. by constructor.
  - apply parses_to_try_from.
Qed.

(** C13: [add] with a wrong number of words fails with the message that
    counts the words after [add]. *)
Theorem try_from_add_arity (rest : list string) :
  length rest <> 2 -> try_from ("add" :: rest)%string = Err (add_arity_error (length rest)).
Proof.
  intros Hlen. simpl. case_decide as H; [|simpl in H; lia]. by rewrite Nat.sub_0_r.
Qed.

(** C26: the [usize] arithmetic of the error messages never wraps: an
    [add] or [rm] error reports [value.len() - 1] on a non-empty line, the
    number of words after the operation, and a print error the whole
    count, at least 2. *)
Theorem try_from_error_counts (value : list string) (msg : Error) :
  try_from value = Err msg ->
  (exists n, S n = length value /\ n <> 2 /\ msg = add_arity_error n) \/
  (exists n, S n = length value /\ n <> 1 /\ msg = remove_arity_error n) \/
  (1 < length value /\ msg = print_arity_error (length value)).
Proof.
  destruct value as [|term rest]; [done|]. simpl.
  repeat case_decide; intros Hm; simplify_eq; simpl in *.
  - left. exists (length rest). rewrite Nat.sub_0_r. split_and!; [done|lia|done].
  - right; left. exists (length rest). rewrite Nat.sub_0_r. split_and!; [done|lia|done].
  - right; right. split; [lia|done].
Qed.

(** ** The configuration path *)

Lemma need_sep_app (s : string) (c : ascii) (t : string) :
  need_sep (s +:+ String c t) = need_sep (String c t).
Proof.
  unfold need_sep. rewrite list_ascii_of_string_app. simpl. by rewrite last_app_cons.
Qed.

(** C14: with [PROJECTOR_CONFIG_PATH] set to a directory not ending in
    ['/'], the config file is [projector/projector.json] below it. *)
Theorem get_config_env (env : Env) (loc : string) :
  env_var env "PROJECTOR_CONFIG_PATH" = Some loc -> need_sep loc = true ->
  get_config env None = Ok (loc +:+ "/projector/projector.json")%string.
Proof.
  intros Henv Hsep. simpl. rewrite Henv. simpl. unfold push. simpl. rewrite Hsep.
  assert (Hs : need_sep (loc +:+ "/" +:+ "projector") = true)
    by exact (eq_trans (need_sep_app loc "/" ("" +:+ "projector")) eq_refl).
  rewrite Hs, !string_app_assoc. reflexivity.
Qed.

(** With the variable unset, the config file is
    [/projector/projector.json]. *)
Theorem get_config_default (env : Env) :
  env_var env "PROJECTOR_CONFIG_PATH" = None ->
  get_config env None = Ok "/projector/projector.json"%string.
Proof. intros Henv. simpl. by rewrite Henv. Qed.

(** ** [Config] *)

(** C16: a malformed command line is reported before any path problem. *)
Theorem config_try_from_operation_error (env : Env) (opts : Opts) (e : Error) :
  try_from (args opts) = Err e -> config_try_from env opts = Err e.
Proof. unfold config_try_from. by intros ->. Qed.

(** ** Witnesses *)

Lemma try_from_add_arity_witness :
  length ["x"]%string <> 2 /\
  try_from ["add"; "x"]%string = Err (add_arity_error (length ["x"]%string)).
Proof.
  assert (H : length ["x"]%string <> 2) by (simpl; lia).
  split; [exact H | exact (try_from_add_arity ["x"]%string H)].
Defined.

Lemma get_config_env_witness :
  env_var home_env "PROJECTOR_CONFIG_PATH" = Some "/home/u"%string /\ need_sep "/home/u" = true /\
  get_config home_env None = Ok "/home/u/projector/projector.json"%string.
Proof.
  assert (H1 : env_var home_env "PROJECTOR_CONFIG_PATH" = Some "/home/u"%string) by reflexivity.
  assert (H2 : need_sep "/home/u" = true) by reflexivity.
  split; [exact H1 | split; [exact H2 | exact (get_config_env home_env "/home/u" H1 H2)]].
Defined.

Lemma config_try_from_operation_error_witness :
  try_from (args (mkOpts ["rm"] None None)) = Err (remove_arity_error 0) /\
  config_try_from test_env (mkOpts ["rm"] None None) = Err (remove_arity_error 0).
Proof.
  assert (H : try_from (args (mkOpts ["rm"] None None)) = Err (remove_arity_error 0)) by reflexivity.
  split; [exact H | exact (config_try_from_operation_error test_env _ _ H)].
Defined.

Lemma try_from_error_counts_witness :
  try_from ["add"; "x"]%string = Err (add_arity_error 1) /\
  ((exists n, S n = length ["add"; "x"]%string /\ n <> 2 /\ add_arity_error 1 = add_arity_error n) \/
   (exists n, S n = length ["add"; "x"]%string /\ n <> 1 /\ add_arity_error 1 = remove_arity_error n) \/
   (1 < length ["add"; "x"]%string /\ add_arity_error 1 = print_arity_error (length ["add"; "x"]%string))).
Proof.
  assert (H : try_from ["add"; "x"]%string = Err (add_arity_error 1)) by (vm_compute; reflexivity).
  split; [exact H | exact (try_from_error_counts _ _ H)].
Defined.
