(* ===== verification/Json.v ===== *)
(** * Json: the serde_json wire format of the persisted store

    [Projector::save] writes [serde_json::to_string(&self.data)] and
    [Projector::from_config] reads it back with [serde_json::from_str]
    (src/projector.rs lines 78 and 91); [main] prints the resolved scope
    with [serde_json::to_string] (src/bin/projector.rs line 16).  serde_json
    is a library the sources only call, so this file models the part of it
    those calls use, from its published behaviour: the compact printer of
    strings and string-keyed maps, and the byte-level parser of the derived
    [Deserialize] of [struct Data] (map and sequence forms, unknown fields
    skipped, duplicate and missing [projector] rejected, trailing input
    rejected).  Text is a list of bytes ([ascii]); the UTF-8 validity of
    Rust's [String] is not modelled (bytes are copied through), but that
    of a [PathBuf] key is: [to_string] fails on a key that is not UTF-8.

    Loops over the input (map entries, the iterative [ignore_value] with its
    explicit stack of open brackets) take a fuel argument; [from_str] gives
    them [S (length input)], and [Json.from_str_total] shows that this never
    runs out, since every iteration consumes a byte. *)
From Stdlib Require Import ZArith.
From S2P Require Import Prelude Path ProjectorRs.

Local Open Scope char_scope.

(** ** serde_json error codes met on this path *)
Inductive json_error : Type :=
| EofWhileParsingValue | EofWhileParsingString | EofWhileParsingList
| EofWhileParsingObject | ExpectedColon | ExpectedListCommaOrEnd
| ExpectedObjectCommaOrEnd | ExpectedSomeIdent | ExpectedSomeValue
| InvalidEscape | InvalidNumber | ControlCharacterWhileParsingString
| KeyMustBeAString | LoneLeadingSurrogateInHexEscape | UnexpectedEndOfHexEscape
| TrailingCharacters | TrailingComma
(** serde's [Error::custom] messages of the derived visitor *)
| InvalidType | InvalidLength | MissingField | DuplicateField
(** serde's [Serialize for Path]: ["path contains invalid UTF-8 characters"] *)
| PathNotUtf8
(** not a serde_json error: the model's loop fuel ran out (never happens,
    [from_str_total]) *)
| OutOfFuel.

#[export] Instance json_error_eq_dec : EqDecision json_error.
Proof. solve_decision. Defined.

Abbreviation bytes := (list ascii).

(** The bytes 0x22 (quote), 0x5C (backslash), 0x0A, 0x09, 0x0D. *)
Definition dquote : ascii := Ascii false true false false false true false false.
Definition bslash : ascii := Ascii false false true true true false true false.
Definition lf : ascii := Ascii false true false true false false false false.
Definition tab : ascii := Ascii true false false true false false false false.
Definition cr : ascii := Ascii true false true true false false false false.

(** ** Printer ([ser.rs]: [format_escaped_str], [CompactFormatter]) *)

Definition hex_digit (n : nat) : ascii := nth n (list_ascii_of_string "0123456789abcdef") "0".

(** The [ESCAPE] table: quote, backslash and the control bytes below 0x20
    are escaped, with the short forms [\b \t \n \f \r] where JSON has
    them and [\u00XX] (lower-case hex) otherwise; every other byte is
    written as is. *)
Definition escape_byte (c : ascii) : bytes :=
  let n := nat_of_ascii c in
  if decide (n = 34) then [bslash; dquote]
  else if decide (n = 92) then [bslash; bslash]
  else if decide (n = 8) then [bslash; "b"]
  else if decide (n = 9) then [bslash; "t"]
  else if decide (n = 10) then [bslash; "n"]
  else if decide (n = 12) then [bslash; "f"]
  else if decide (n = 13) then [bslash; "r"]
  else if decide (n < 32) then [bslash; "u"; "0"; "0"; hex_digit (n / 16); hex_digit (n mod 16)]
  else [c].

Definition ser_str (s : string) : bytes :=
  dquote :: flat_map escape_byte (list_ascii_of_string s) ++ [dquote].

(** [SerializeMap] of the compact formatter: [{], entries separated by
    [,], each [key:value], then [}]; the entries come in the map's
    iteration order, which is the list given. *)
Fixpoint ser_entries {V} (sv : V -> bytes) (first : bool) (l : list (string * V)) : bytes :=
  match l with
  | [] => []
  | (k, v) :: l' =>
      (if first then [] else [","]) ++ ser_str k ++ ":" :: sv v ++ ser_entries sv false l'
  end.

Definition ser_map {V} (sv : V -> bytes) (l : list (string * V)) : bytes :=
  "{" :: ser_entries sv true l ++ ["}"].

Definition ser_scope (l : list (string * string)) : bytes := ser_map ser_str l.

(** [#[derive(Serialize)] struct Data]: one field [projector]; a [PathBuf]
    key is written as its string.  The outer map's entries come in the
    order [l], each scope's in the order [ord] gives. *)
Definition ser_data (ord : Scope -> list (string * string)) (l : list (PathBuf * Scope)) : bytes :=
  "{" :: ser_str "projector" ++ ":" :: ser_map (fun sc => ser_scope (ord sc)) l ++ ["}"].

(** The iteration order of a Rust [HashMap] is unspecified; the model
    iterates in [map_to_list] order (the round trips hold for every order). *)
Definition scope_entries (sc : Scope) : list (string * string) := map_to_list sc.

Definition data_entries (d : Data) : list (PathBuf * Scope) := snd <$> map_to_list (projector d).

(** The text the compact printer writes for a store. *)
Definition print_data (d : Data) : string :=
  string_of_list_ascii (ser_data scope_entries (data_entries d)).

(** UTF-8 validity as [str::from_utf8] checks it (Unicode Table 3-7): no
    overlong forms, no surrogates, nothing above U+10FFFF. *)
Definition byte_in (c : ascii) (lo hi : nat) : bool := bool_decide (lo <= nat_of_ascii c <= hi).

Fixpoint utf8_valid (s : bytes) : bool :=
  match s with
  | [] => true
  | c :: s1 =>
    let n := nat_of_ascii c in
    if decide (n < 128) then utf8_valid s1 else
    match s1 with
    | [] => false
    | c2 :: s2 =>
      if decide (194 <= n <= 223) then byte_in c2 128 191 && utf8_valid s2 else
      match s2 with
      | [] => false
      | c3 :: s3 =>
        if decide (224 <= n <= 239) then
          byte_in c2 (if decide (n = 224) then 160 else 128) (if decide (n = 237) then 159 else 191)
          && byte_in c3 128 191 && utf8_valid s3 else
        match s3 with
        | [] => false
        | c4 :: s4 =>
          if decide (240 <= n <= 244) then
            byte_in c2 (if decide (n = 240) then 144 else 128) (if decide (n = 244) then 143 else 191)
            && byte_in c3 128 191 && byte_in c4 128 191 && utf8_valid s4
          else false
        end
      end
    end
  end.

(** [impl Serialize for Path]: [self.to_str()], which fails on a path
    that is not UTF-8 (a [PathBuf] holds arbitrary bytes on Unix). *)
Definition path_utf8 (k : PathBuf) : bool := utf8_valid (list_ascii_of_string k).

(** [serde_json::to_string(&self.data)]: the printed text, or the error
    of the first directory key that is not UTF-8 (the serialisation of a
    [String] cannot fail). *)
Definition paths_utf8 (d : Data) : bool := forallb (fun e => path_utf8 e.1) (data_entries d).

Definition to_string_data (d : Data) : result string json_error :=
  if paths_utf8 d then Ok (print_data d) else Err PathNotUtf8.

Definition to_string_scope (sc : Scope) : string := string_of_list_ascii (ser_scope (scope_entries sc)).

(** ** Parser ([de.rs], [read.rs]) *)

Fixpoint skip_ws (s : bytes) : bytes :=
  match s with
  | c :: s' => if (Ascii.eqb c " " || Ascii.eqb c lf || Ascii.eqb c tab || Ascii.eqb c cr)%bool
               then skip_ws s' else s
  | [] => []
  end.

Definition hex_val (c : ascii) : option Z :=
  let n := Z.of_nat (nat_of_ascii c) in
  if decide (48 <= n <= 57)%Z then Some (n - 48)%Z
  else if decide (97 <= n <= 102)%Z then Some (n - 87)%Z
  else if decide (65 <= n <= 70)%Z then Some (n - 55)%Z
  else None.

(** [decode_hex_escape]: four hex digits, most significant first. *)
Definition decode_hex4 (a b c d : ascii) : option Z :=
  match hex_val a, hex_val b, hex_val c, hex_val d with
  | Some a, Some b, Some c, Some d =>
      Some (Z.lor (Z.lor (Z.shiftl a 12) (Z.shiftl b 8)) (Z.lor (Z.shiftl c 4) d))
  | _, _, _, _ => None
  end.

Definition byte_of_Z (z : Z) : ascii := ascii_of_N (Z.to_N z).

(** [push_wtf8_codepoint]: the UTF-8 bytes of code point [n]. *)
Definition encode_utf8 (n : Z) : list Z :=
  if decide (n < 0x80)%Z then [n]
  else if decide (n < 0x800)%Z then
    [Z.lor (Z.land (Z.shiftr n 6) 0x1F) 0xC0; Z.lor (Z.land n 0x3F) 0x80]
  else if decide (n < 0x10000)%Z then
    [Z.lor (Z.land (Z.shiftr n 12) 0x0F) 0xE0;
     Z.lor (Z.land (Z.shiftr n 6) 0x3F) 0x80; Z.lor (Z.land n 0x3F) 0x80]
  else
    [Z.lor (Z.land (Z.shiftr n 18) 0x07) 0xF0; Z.lor (Z.land (Z.shiftr n 12) 0x3F) 0x80;
     Z.lor (Z.land (Z.shiftr n 6) 0x3F) 0x80; Z.lor (Z.land n 0x3F) 0x80].

Definition is_lead_surrogate (n : Z) : bool := bool_decide (0xD800 <= n <= 0xDBFF)%Z.
Definition is_trail_surrogate (n : Z) : bool := bool_decide (0xDC00 <= n <= 0xDFFF)%Z.

(** The code point of a surrogate pair. *)
Definition surrogate_pair (n1 n2 : Z) : Z :=
  (Z.lor (Z.shiftl (n1 - 0xD800) 10) (n2 - 0xDC00) + 0x10000)%Z.

Definition simple_escape (e : ascii) : option ascii :=
  let n := nat_of_ascii e in
  if decide (n = 34) then Some dquote
  else if decide (n = 92) then Some bslash
  else if decide (n = 47) then Some "/"
  else if decide (e = "b") then Some (ascii_of_nat 8)
  else if decide (e = "f") then Some (ascii_of_nat 12)
  else if decide (e = "n") then Some lf
  else if decide (e = "r") then Some cr
  else if decide (e = "t") then Some tab
  else None.

(** [parse_str] after the opening quote, with [parse_escape] and
    [parse_unicode_escape] (validating: surrogates must pair up).
    Returns the decoded bytes and the input after the closing quote. *)
Fixpoint parse_str_body (s : bytes) : result (bytes * bytes) json_error :=
  match s with
  | [] => Err EofWhileParsingString
  | c :: s1 =>
    if Ascii.eqb c dquote then Ok ([], s1)
    else if Ascii.eqb c bslash then
      match s1 with
      | [] => Err EofWhileParsingString
      | e :: s2 =>
        if Ascii.eqb e "u" then
          match s2 with
          | h1 :: h2 :: h3 :: h4 :: s3 =>
            match decode_hex4 h1 h2 h3 h4 with
            | None => Err InvalidEscape
            | Some n =>
              if is_trail_surrogate n then Err LoneLeadingSurrogateInHexEscape
              else if is_lead_surrogate n then
                match s3 with
                | [] => Err EofWhileParsingString
                | b :: s4 =>
                  if negb (Ascii.eqb b bslash) then Err UnexpectedEndOfHexEscape else
                  match s4 with
                  | [] => Err EofWhileParsingString
                  | u :: s5 =>
                    if negb (Ascii.eqb u "u") then Err UnexpectedEndOfHexEscape else
                    match s5 with
                    | l1 :: l2 :: l3 :: l4 :: s6 =>
                      match decode_hex4 l1 l2 l3 l4 with
                      | None => Err InvalidEscape
                      | Some n2 =>
                        if negb (is_trail_surrogate n2) then Err LoneLeadingSurrogateInHexEscape
                        else r ←? parse_str_body s6 ;
                             Ok (map byte_of_Z (encode_utf8 (surrogate_pair n n2)) ++ r.1, r.2)
                      end
                    | _ => Err EofWhileParsingString
                    end
                  end
                end
              else r ←? parse_str_body s3 ; Ok (map byte_of_Z (encode_utf8 n) ++ r.1, r.2)
            end
          | _ => Err EofWhileParsingString
          end
        else
          match simple_escape e with
          | Some b => r ←? parse_str_body s2 ; Ok (b :: r.1, r.2)
          | None => Err InvalidEscape
          end
      end
    else if decide (nat_of_ascii c < 32) then Err ControlCharacterWhileParsingString
    else r ←? parse_str_body s1 ; Ok (c :: r.1, r.2)
  end.

(** [deserialize_string]: a string value. *)
Definition parse_string (s : bytes) : result (string * bytes) json_error :=
  match skip_ws s with
  | [] => Err EofWhileParsingValue
  | c :: s1 =>
    if Ascii.eqb c dquote then r ←? parse_str_body s1 ; Ok (string_of_list_ascii r.1, r.2)
    else Err InvalidType
  end.

(** [parse_object_colon]. *)
Definition parse_colon (s : bytes) : result bytes json_error :=
  match skip_ws s with
  | [] => Err EofWhileParsingObject
  | c :: s1 => if Ascii.eqb c ":" then Ok s1 else Err ExpectedColon
  end.

(** [MapAccess]: the entries of an object whose [{] has been eaten, up to
    (not including) its [}].  [handle acc key s] runs on the input after
    the key: it parses the colon and the value (or fails first). *)
Section MapAccess.
Context {M : Type} (handle : M -> string -> bytes -> result (M * bytes) json_error).

Fixpoint map_entries (fuel : nat) (first : bool) (acc : M) (s : bytes)
    : result (M * bytes) json_error :=
  match fuel with
  | O => Err OutOfFuel
  | S fuel' =>
    match skip_ws s with
    | [] => Err EofWhileParsingObject
    | c :: s1 =>
      if Ascii.eqb c "}" then Ok (acc, c :: s1)
      else
        let peek := if first then Ok (c :: s1)
                    else if Ascii.eqb c "," then Ok (skip_ws s1)
                    else Err ExpectedObjectCommaOrEnd in
        t ←? peek ;
        match t with
        | [] => Err EofWhileParsingValue
        | k :: t1 =>
          if Ascii.eqb k dquote then
            key ←? parse_str_body t1 ;
            r ←? handle acc (string_of_list_ascii key.1) key.2 ;
            map_entries fuel' false r.1 r.2
          else if Ascii.eqb k "}" then Err TrailingComma
          else Err KeyMustBeAString
        end
    end
  end.
End MapAccess.

(** [end_map]. *)
Definition end_map (s : bytes) : result bytes json_error :=
  match skip_ws s with
  | [] => Err EofWhileParsingObject
  | c :: s1 =>
    if Ascii.eqb c "}" then Ok s1
    else if Ascii.eqb c "," then Err TrailingComma
    else Err TrailingCharacters
  end.

(** One entry of a [HashMap]'s [visit_map]: [next_value] (colon, value),
    then [insert]. *)
Definition map_entry {M V : Type} (ins : string -> V -> M -> M)
    (pval : bytes -> result (V * bytes) json_error) (acc : M) (k : string) (t : bytes)
    : result (M * bytes) json_error :=
  t1 ←? parse_colon t ; v ←? pval t1 ; Ok (ins k v.1 acc, v.2).

(** [deserialize_map] of a [HashMap]. *)
Definition parse_map {M V : Type} (empty : M) (ins : string -> V -> M -> M)
    (pval : bytes -> result (V * bytes) json_error) (fuel : nat) (s : bytes)
    : result (M * bytes) json_error :=
  match skip_ws s with
  | [] => Err EofWhileParsingValue
  | c :: s1 =>
    if Ascii.eqb c "{" then
      r ←? map_entries (map_entry ins pval) fuel true empty s1 ;
      s2 ←? end_map r.2 ; Ok (r.1, s2)
    else Err InvalidType
  end.

(** [HashMap<String, String>]. *)
Definition parse_scope (fuel : nat) (s : bytes) : result (Scope * bytes) json_error :=
  parse_map ∅ (fun k v m => <[k := v]> m) parse_string fuel s.

(** [HashMap<PathBuf, HashMap<String, String>>]: a repeated key keeps the
    stored [PathBuf] and takes the new value ([HashMap::insert]). *)
Definition parse_projector (fuel : nat) (s : bytes)
    : result (gmap Path (PathBuf * Scope) * bytes) json_error :=
  parse_map ∅ (hm_insert components) (parse_scope fuel) fuel s.

(** ** Skipping a value of an unknown field ([ignore_value]) *)

Definition is_digit (c : ascii) : bool := bool_decide (48 <= nat_of_ascii c <= 57).

Fixpoint skip_digits (s : bytes) : bytes :=
  match s with
  | c :: s' => if is_digit c then skip_digits s' else s
  | [] => []
  end.

(** [ignore_exponent], after the [e] or [E]. *)
Definition ignore_exponent (s : bytes) : result bytes json_error :=
  let s := match s with
           | c :: s' => if (Ascii.eqb c "+" || Ascii.eqb c "-")%bool then s' else s
           | [] => []
           end in
  match s with
  | c :: s' => if is_digit c then Ok (skip_digits s') else Err InvalidNumber
  | [] => Err InvalidNumber
  end.

Definition is_exp_mark (c : ascii) : bool := (Ascii.eqb c "e" || Ascii.eqb c "E")%bool.

(** [ignore_decimal], after the [.]. *)
Definition ignore_decimal (s : bytes) : result bytes json_error :=
  match s with
  | c :: _ =>
    if is_digit c then
      match skip_digits s with
      | e :: s' => if is_exp_mark e then ignore_exponent s' else Ok (e :: s')
      | [] => Ok []
      end
    else Err InvalidNumber
  | [] => Err InvalidNumber
  end.

(** [ignore_integer]: one leading [0] or a non-zero digit and digits, then an
    optional fraction and exponent. *)
Definition ignore_integer (s : bytes) : result bytes json_error :=
  let int_part :=
    match s with
    | c :: s' =>
      if Ascii.eqb c "0" then
        match s' with
        | d :: _ => if is_digit d then Err InvalidNumber else Ok s'
        | [] => Ok s'
        end
      else if is_digit c then Ok (skip_digits s')
      else Err InvalidNumber
    | [] => Err InvalidNumber
    end in
  t ←? int_part ;
  match t with
  | c :: t' =>
    if Ascii.eqb c "." then ignore_decimal t'
    else if is_exp_mark c then ignore_exponent t'
    else Ok t
  | [] => Ok []
  end.

(** [parse_ident]: the rest of [null], [true] or [false]. *)
Fixpoint parse_ident (expected : bytes) (s : bytes) : result bytes json_error :=
  match expected, s with
  | [], _ => Ok s
  | _ :: _, [] => Err EofWhileParsingValue
  | e :: es, c :: s' => if Ascii.eqb c e then parse_ident es s' else Err ExpectedSomeIdent
  end.

(** [ignore_str] and [ignore_escape]: a string is skipped without decoding;
    a [\u] escape needs four hex digits but is not checked for surrogates. *)
Fixpoint ignore_str (s : bytes) : result bytes json_error :=
  match s with
  | [] => Err EofWhileParsingString
  | c :: s1 =>
    if Ascii.eqb c dquote then Ok s1
    else if Ascii.eqb c bslash then
      match s1 with
      | [] => Err EofWhileParsingString
      | e :: s2 =>
        if Ascii.eqb e "u" then
          match s2 with
          | h1 :: h2 :: h3 :: h4 :: s3 =>
            match decode_hex4 h1 h2 h3 h4 with
            | None => Err InvalidEscape
            | Some _ => ignore_str s3
            end
          | _ => Err EofWhileParsingString
          end
        else
          match simple_escape e with
          | Some _ => ignore_str s2
          | None => Err InvalidEscape
          end
      end
    else if decide (nat_of_ascii c < 32) then Err ControlCharacterWhileParsingString
    else ignore_str s1
  end.

(** The first step of an iteration of [ignore_value]: a scalar is skipped
    whole ([None]); an opening bracket is eaten and returned as a frame. *)
Definition ignore_token (s : bytes) : result (option ascii * bytes) json_error :=
  match skip_ws s with
  | [] => Err EofWhileParsingValue
  | c :: s1 =>
    if Ascii.eqb c "n" then t ←? parse_ident (list_ascii_of_string "ull") s1 ; Ok (None, t)
    else if Ascii.eqb c "t" then t ←? parse_ident (list_ascii_of_string "rue") s1 ; Ok (None, t)
    else if Ascii.eqb c "f" then t ←? parse_ident (list_ascii_of_string "alse") s1 ; Ok (None, t)
    else if Ascii.eqb c "-" then t ←? ignore_integer s1 ; Ok (None, t)
    else if is_digit c then t ←? ignore_integer (c :: s1) ; Ok (None, t)
    else if Ascii.eqb c dquote then t ←? ignore_str s1 ; Ok (None, t)
    else if (Ascii.eqb c "[" || Ascii.eqb c "{")%bool then Ok (Some c, s1)
    else Err ExpectedSomeValue
  end.

Definition eof_in_frame (frame : ascii) : json_error :=
  if Ascii.eqb frame "[" then EofWhileParsingList else EofWhileParsingObject.

Definition comma_or_end_in_frame (frame : ascii) : json_error :=
  if Ascii.eqb frame "[" then ExpectedListCommaOrEnd else ExpectedObjectCommaOrEnd.

Definition closes (frame c : ascii) : bool :=
  (Ascii.eqb c "]" && Ascii.eqb frame "[" || Ascii.eqb c "}" && Ascii.eqb frame "{")%bool.

(** The inner loop of [ignore_value]: after a value inside [frame], close
    brackets (popping the enclosing frames [st]) until a [,] (then the next
    value of the innermost open frame follows, [Some]) or until the
    outermost value is complete ([None]).  With [accept_comma = false]
    the frame was just opened: a closing bracket empties it, anything else
    starts its first element. *)
Fixpoint close_frames (frame : ascii) (accept_comma : bool) (st : list ascii) (s : bytes)
    : result (option (ascii * list ascii) * bytes) json_error :=
  match skip_ws s with
  | [] => Err (eof_in_frame frame)
  | c :: s1 =>
    if (accept_comma && Ascii.eqb c ",")%bool then Ok (Some (frame, st), s1)
    else if closes frame c then
      match st with
      | [] => Ok (None, s1)
      | f :: st' => close_frames f true st' s1
      end
    else if accept_comma then Err (comma_or_end_in_frame frame)
    else Ok (Some (frame, st), c :: s1)
  end.

(** Inside an object, a key and its colon precede each value. *)
Definition ignore_object_key (s : bytes) : result bytes json_error :=
  match skip_ws s with
  | [] => Err EofWhileParsingObject
  | c :: s1 =>
    if Ascii.eqb c dquote then
      t ←? ignore_str s1 ;
      match skip_ws t with
      | [] => Err EofWhileParsingObject
      | d :: t1 => if Ascii.eqb d ":" then Ok t1 else Err ExpectedColon
      end
    else Err KeyMustBeAString
  end.

(** [ignore_value]: serde_json's loop with an explicit stack of the open
    brackets ([enclosing] on top of [scratch]), so that nesting depth is
    not limited by recursion.  [st] is that stack, innermost first. *)
Fixpoint ignore_loop (fuel : nat) (st : list ascii) (s : bytes) : result bytes json_error :=
  match fuel with
  | O => Err OutOfFuel
  | S fuel' =>
    t ←? ignore_token s ;
    r ←? match t.1 with
         | Some f => close_frames f false st t.2
         | None =>
           match st with
           | [] => Ok (None, t.2)
           | f :: st' => close_frames f true st' t.2
           end
         end ;
    match r.1 with
    | None => Ok r.2
    | Some (f, st') =>
      s2 ←? (if Ascii.eqb f "{" then ignore_object_key r.2 else Ok r.2) ;
      ignore_loop fuel' (f :: st') s2
    end
  end.

Definition ignore_value (fuel : nat) (s : bytes) : result bytes json_error := ignore_loop fuel [] s.

(** ** The derived [Deserialize] of [struct Data] *)

(** [visit_map] of the derived visitor, one entry: the [projector] field
    (an error if it was already seen) or an unknown field, skipped. *)
Definition data_field (fuel : nat) (acc : option (gmap Path (PathBuf * Scope)))
    (key : string) (s : bytes) : result (option (gmap Path (PathBuf * Scope)) * bytes) json_error :=
  if String.eqb key "projector" then
    match acc with
    | Some _ => Err DuplicateField
    | None => t ←? parse_colon s ; r ←? parse_projector fuel t ; Ok (Some r.1, r.2)
    end
  else t ←? parse_colon s ; u ←? ignore_value fuel t ; Ok (acc, u).

(** [end_seq]. *)
Definition end_seq (s : bytes) : result bytes json_error :=
  match skip_ws s with
  | [] => Err EofWhileParsingList
  | c :: s1 =>
    if Ascii.eqb c "]" then Ok s1
    else if Ascii.eqb c "," then
      match skip_ws s1 with
      | d :: _ => if Ascii.eqb d "]" then Err TrailingComma else Err TrailingCharacters
      | [] => Err TrailingCharacters
      end
    else Err TrailingCharacters
  end.

(** [deserialize_struct]: the map form [{"projector": ...}] or the sequence
    form [[...]] (the field in order). *)
Definition parse_data (fuel : nat) (s : bytes) : result (Data * bytes) json_error :=
  match skip_ws s with
  | [] => Err EofWhileParsingValue
  | c :: s1 =>
    if Ascii.eqb c "{" then
      r ←? map_entries (data_field fuel) fuel true None s1 ;
      match r.1 with
      | None => Err MissingField
      | Some m => s2 ←? end_map r.2 ; Ok (mkData m, s2)
      end
    else if Ascii.eqb c "[" then
      match skip_ws s1 with
      | [] => Err EofWhileParsingList
      | d :: _ =>
        if Ascii.eqb d "]" then Err InvalidLength
        else r ←? parse_projector fuel s1 ; s2 ←? end_seq r.2 ; Ok (mkData r.1, s2)
      end
    else Err InvalidType
  end.

(** [Deserializer::end]: only whitespace may follow the value. *)
Definition parse_end (s : bytes) : result unit json_error :=
  match skip_ws s with
  | [] => Ok tt
  | _ => Err TrailingCharacters
  end.

(** [serde_json::from_str::<Data>]. *)
Definition from_str_data (input : string) : result Data json_error :=
  let s := list_ascii_of_string input in
  r ←? parse_data (S (length s)) s ; _ ←? parse_end r.2 ; Ok r.1.

(** [serde_json::from_str::<HashMap<String, String>>], the reader of what
    [main] prints for [Print(None)]. *)
Definition from_str_scope (input : string) : result Scope json_error :=
  let s := list_ascii_of_string input in
  r ←? parse_scope (S (length s)) s ; _ ←? parse_end r.2 ; Ok r.1.

(** ** The keys [to_string] accepts *)

Lemma paths_utf8_spec (d : Data) :
  paths_utf8 d = true <-> map_Forall (fun _ kv => path_utf8 kv.1 = true) (projector d).
Proof.
  unfold paths_utf8, data_entries. rewrite forallb_forall. split; intros H.
  - intros p kv Hp. apply H, list_elem_of_In, list_elem_of_fmap. exists (p, kv).
    split; [done|]. by apply elem_of_map_to_list.
  - intros kv Hin. apply list_elem_of_In, list_elem_of_fmap in Hin as ([p kv'] & -> & Hin).
    apply elem_of_map_to_list in Hin. exact (H p kv' Hin).
Qed.

(** ** Printing then parsing *)

Lemma parse_str_body_escape (c : ascii) (t : bytes) :
  parse_str_body (escape_byte c ++ t) = (r ←? parse_str_body t ; Ok (c :: r.1, r.2)).
Proof. destruct c as [[] [] [] [] [] [] [] []]; reflexivity. Qed.

Lemma parse_str_body_ser (l t : bytes) :
  parse_str_body (flat_map escape_byte l ++ dquote :: t) = Ok (l, t).
Proof.
  induction l as [|c l IH]; [reflexivity|].
  cbn [flat_map]. rewrite <-app_assoc, parse_str_body_escape, IH. reflexivity.
Qed.

Lemma ser_str_app (k : string) (t : bytes) :
  ser_str k ++ t = dquote :: flat_map escape_byte (list_ascii_of_string k) ++ dquote :: t.
Proof. unfold ser_str. simpl. rewrite <-app_assoc. reflexivity. Qed.

Lemma parse_string_ser (v : string) (t : bytes) : parse_string (ser_str v ++ t) = Ok (v, t).
Proof.
  rewrite ser_str_app. unfold parse_string. cbn -[parse_str_body].
  rewrite parse_str_body_ser. cbn. rewrite string_of_list_ascii_of_string. reflexivity.
Qed.

Section MapEntriesSer.
Context {M W : Type} (h : M -> string -> bytes -> result (M * bytes) json_error)
  (sv : W -> bytes) (upd : M -> string * W -> M).

(** The entry loop reads back printed entries, given that the handler
    reads back each printed value. *)
Lemma map_entries_ser fuel first acc (l : list (string * W)) t :
  length l < fuel ->
  Forall (fun kv => forall acc t, h acc kv.1 (":" :: sv kv.2 ++ t) = Ok (upd acc kv, t)) l ->
  map_entries h fuel first acc (ser_entries sv first l ++ "}" :: t) = Ok (foldl upd acc l, "}" :: t).
Proof.
  revert fuel first acc. induction l as [|[k v] l IH]; intros fuel first acc Hf Hl;
    (destruct fuel as [|fuel]; [simpl in Hf; lia|]); [reflexivity|].
  inversion Hl as [|? ? Hkv Hl']; subst. simpl in Hf.
  cbn [ser_entries]. rewrite <-!app_assoc, ser_str_app.
  destruct first; cbn -[parse_str_body ser_entries];
    rewrite parse_str_body_ser; cbn -[ser_entries]; rewrite string_of_list_ascii_of_string;
    rewrite <-app_assoc; cbn -[ser_entries]; rewrite Hkv; cbn -[ser_entries]; apply IH; auto; lia.
Qed.
End MapEntriesSer.

Lemma parse_map_ser {M V W : Type} (empty : M) ins (pval : bytes -> result (V * bytes) json_error)
    (sv : W -> bytes) (dec : W -> V) fuel (l : list (string * W)) t :
  length l < fuel ->
  Forall (fun kv => forall t, pval (sv kv.2 ++ t) = Ok (dec kv.2, t)) l ->
  parse_map empty ins pval fuel (ser_map sv l ++ t) =
  Ok (foldl (fun m kv => ins kv.1 (dec kv.2) m) empty l, t).
Proof.
  intros Hf Hl. unfold parse_map, ser_map. cbn -[map_entries ser_entries].
  rewrite <-app_assoc. cbn -[map_entries ser_entries].
  rewrite (map_entries_ser _ sv (fun m kv => ins kv.1 (dec kv.2) m)); [reflexivity|done|].
  eapply Forall_impl; [exact Hl|]. intros [k v] Hv acc t'. unfold map_entry. simpl. rewrite Hv. reflexivity.
Qed.

Lemma ser_str_length (k : string) : 2 <= length (ser_str k).
Proof. unfold ser_str. simpl. rewrite length_app. simpl. lia. Qed.

Lemma ser_entries_length {V} (sv : V -> bytes) first (l : list (string * V)) :
  length l <= length (ser_entries sv first l) /\
  Forall (fun kv => length (sv kv.2) < length (ser_entries sv first l)) l.
Proof.
  revert first. induction l as [|[k v] l IH]; intros first; [simpl; auto|].
  destruct (IH false) as [IH1 IH2]. pose proof (ser_str_length k).
  cbn [ser_entries]. rewrite !length_app. cbn [length]. rewrite length_app.
  assert (Hf : length (if first then [] else [","]) <= 1) by (destruct first; simpl; lia).
  split; [lia|]. constructor; [simpl; lia|].
  eapply Forall_impl; [exact IH2|]. intros x Hx; cbv beta in *; lia.
Qed.

(** A printed map is longer than its number of entries and than each
    printed value: the fuel [S (length input)] covers every loop. *)
Lemma ser_map_length {V} (sv : V -> bytes) (l : list (string * V)) :
  length l < length (ser_map sv l) /\ Forall (fun kv => length (sv kv.2) < length (ser_map sv l)) l.
Proof.
  destruct (ser_entries_length sv true l) as [H1 H2]. unfold ser_map. simpl. rewrite length_app. simpl.
  split; [lia|]. eapply Forall_impl; [exact H2|]. intros x Hx; cbv beta in *; lia.
Qed.

Lemma parse_scope_ser fuel (l : list (string * string)) (sc : Scope) t :
  length l < fuel -> l ≡ₚ map_to_list sc -> parse_scope fuel (ser_scope l ++ t) = Ok (sc, t).
Proof.
  intros Hf Hp. unfold parse_scope, ser_scope.
  rewrite (parse_map_ser _ _ _ ser_str id); [|done|].
  - do 2 f_equal. exact (foldl_insert_perm l sc Hp).
  - apply Forall_forall. intros kv _ t'. apply parse_string_ser.
Qed.

Lemma parse_projector_ser fuel (ord : Scope -> list (string * string)) (l : list (PathBuf * Scope)) t :
  length l < fuel -> Forall (fun kv => length (ord kv.2) < fuel) l ->
  (forall sc, ord sc ≡ₚ map_to_list sc) ->
  parse_projector fuel (ser_map (fun sc => ser_scope (ord sc)) l ++ t) =
  Ok (foldl (fun m kv => hm_insert components kv.1 kv.2 m) ∅ l, t).
Proof.
  intros Hf Hord Hperm. unfold parse_projector.
  rewrite (parse_map_ser _ _ _ _ id); [reflexivity|done|].
  eapply Forall_impl; [exact Hord|]. intros [pb sc] Hl t'. by apply parse_scope_ser.
Qed.

Lemma parse_data_ser fuel (ord : Scope -> list (string * string)) (l : list (PathBuf * Scope)) t :
  length l < fuel -> 2 <= fuel -> Forall (fun kv => length (ord kv.2) < fuel) l ->
  (forall sc, ord sc ≡ₚ map_to_list sc) ->
  parse_data fuel (ser_data ord l ++ t) =
  Ok (mkData (foldl (fun m kv => hm_insert components kv.1 kv.2 m) ∅ l), t).
Proof.
  intros Hf H2 Hord Hperm. pose proof (parse_projector_ser fuel ord l ("}" :: t) Hf Hord Hperm) as Hp.
  destruct fuel as [|[|fuel]]; [lia|lia|].
  assert (E : ser_data ord l ++ t =
    "{" :: ser_str "projector" ++ ":" :: ser_map (fun sc => ser_scope (ord sc)) l ++ "}" :: t).
  { unfold ser_data. rewrite <-app_comm_cons, <-!app_assoc, <-app_comm_cons, <-app_assoc. reflexivity. }
  rewrite E, ser_str_app. unfold parse_data.
  cbn -[parse_projector ser_map parse_str_body flat_map]. rewrite parse_str_body_ser.
  cbn -[parse_projector ser_map]. rewrite Hp. cbn -[parse_projector ser_map]. reflexivity.
Qed.
(** ** Fuel: every loop iteration consumes input *)

(** [r] is a real outcome: an [Ok] whose remaining input is shorter than
    [n], or a serde_json error (not fuel exhaustion). *)
Definition advances {A} (f : A -> bytes) (n : nat) (r : result A json_error) : Prop :=
  match r with Ok a => length (f a) < n | Err e => e <> OutOfFuel end.

Lemma advances_Err {A} (f : A -> bytes) n e : e <> OutOfFuel -> advances f n (Err e).
Proof. done. Qed.

Lemma advances_weaken {A} (f : A -> bytes) n m r : advances f n r -> n <= m -> advances f m r.
Proof. destruct r; simpl; lia || done. Qed.

Lemma skip_ws_length s : length (skip_ws s) <= length s.
Proof. induction s as [|c s IH]; simpl; [lia|]. case_match; simpl; lia. Qed.

Lemma skip_digits_length s : length (skip_digits s) <= length s.
Proof. induction s as [|c s IH]; simpl; [lia|]. case_match; simpl; lia. Qed.

(** Destruct the matches and binds of an unfolded parser. *)
Ltac adv_cases :=
  repeat (unfold result_bind in *; case_match); simplify_eq; cbn [advances fst snd length app id] in *;
  repeat match goal with
  | H : ?b = ?v, H' : context [if ?b then _ else _] |- _ => rewrite H in H'; simplify_eq
  end; try done; try lia.

(** Turn each equation [E : g x = r] of a call into the fact [L x] about
    its outcome. *)
Ltac adv_eq L g :=
  repeat match goal with
  | E : g ?x = _ |- _ =>
      let A := fresh "A" in pose proof (L x) as A; rewrite E in A; clear E; cbn [advances fst snd id] in A
  end.
Ltac adv_eq2 L g :=
  repeat match goal with
  | E : g ?x ?y = _ |- _ =>
      let A := fresh "A" in pose proof (L x y) as A; rewrite E in A; clear E; cbn [advances fst snd id] in A
  end.
Ltac adv_eq4 L g :=
  repeat match goal with
  | E : g ?x ?y ?z ?w = _ |- _ =>
      let A := fresh "A" in pose proof (L x y z w) as A; rewrite E in A; clear E;
      cbn [advances fst snd id] in A
  end.
(** A tail call on shorter input: weaken the induction hypothesis. *)
Ltac adv_rec IH := eapply advances_weaken; [apply IH; simpl in *; lia | simpl in *; lia].
Ltac adv_tail L := eapply advances_weaken; [apply L|]; simpl in *; lia.
Ltac adv_close :=
  try match goal with |- context [skip_digits ?x] => pose proof (skip_digits_length x) end;
  simpl in *; first [lia | done | congruence].

(** The induction hypothesis [IH] on the recursive call [g x] of a
    parser recursing on a shorter input. *)
Ltac adv_ih IH g :=
  match goal with
  | E : g ?x = _ |- _ =>
      let A := fresh "A" in pose proof (IH x ltac:(simpl; lia)) as A; rewrite E in A;
      cbn [advances fst snd id] in *; first [lia | done]
  | |- advances _ _ (g ?x) => eapply advances_weaken; [apply IH; simpl; lia | simpl; lia]
  end.

Lemma parse_str_body_adv s : advances snd (length s) (parse_str_body s).
Proof.
  induction s as [s IH] using (induction_ltof1 _ (@length _)); unfold ltof in IH.
  destruct s as [|c s1]; [done|]. cbn [parse_str_body].
  adv_cases. all: adv_ih IH parse_str_body.
Qed.

Lemma ignore_str_adv s : advances id (length s) (ignore_str s).
Proof.
  induction s as [s IH] using (induction_ltof1 _ (@length _)); unfold ltof in IH.
  destruct s as [|c s1]; [done|]. cbn [ignore_str].
  adv_cases. all: adv_ih IH ignore_str.
Qed.

Lemma parse_ident_adv e s : advances id (S (length s)) (parse_ident e s).
Proof.
  revert s. induction e as [|x e IH]; intros [|c s]; simpl; try done; try lia.
  case_match; [|done]. specialize (IH s). destruct (parse_ident e s); simpl in *; first [lia|done].
Qed.

Lemma ignore_exponent_adv s : advances id (S (length s)) (ignore_exponent s).
Proof.
  unfold ignore_exponent. destruct s as [|c s]; simpl; [done|].
  adv_cases; adv_close.
Qed.

Lemma ignore_decimal_adv s : advances id (S (length s)) (ignore_decimal s).
Proof.
  unfold ignore_decimal.
  adv_cases; adv_eq skip_digits_length skip_digits; try adv_tail ignore_exponent_adv; adv_close.
Qed.

Lemma ignore_integer_adv s : advances id (length s) (ignore_integer s).
Proof.
  unfold ignore_integer. destruct s as [|c s]; simpl; [done|].
  adv_cases; adv_eq skip_digits_length skip_digits; try adv_tail ignore_exponent_adv;
    try adv_tail ignore_decimal_adv; adv_close.
Qed.

Lemma parse_string_adv s : advances snd (S (length s)) (parse_string s).
Proof. unfold parse_string. adv_cases. all: adv_eq skip_ws_length skip_ws. all: adv_eq parse_str_body_adv parse_str_body. all: adv_close. Qed.

Lemma parse_colon_adv s : advances id (S (length s)) (parse_colon s).
Proof. unfold parse_colon. adv_cases. all: adv_eq skip_ws_length skip_ws. all: adv_close. Qed.

Lemma end_map_adv s : advances id (S (length s)) (end_map s).
Proof. unfold end_map. adv_cases. all: adv_eq skip_ws_length skip_ws. all: adv_close. Qed.

Lemma end_seq_adv s : advances id (S (length s)) (end_seq s).
Proof. unfold end_seq. adv_cases. all: adv_eq skip_ws_length skip_ws. all: adv_close. Qed.

Lemma ignore_token_adv s : advances snd (length s) (ignore_token s).
Proof.
  unfold ignore_token. adv_cases. all: adv_eq skip_ws_length skip_ws. all: adv_eq2 parse_ident_adv parse_ident.
  all:     adv_eq ignore_integer_adv ignore_integer. all: adv_eq ignore_str_adv ignore_str. all: adv_close.
Qed.

Lemma close_frames_adv frame ac st s :
  advances snd (S (length s)) (close_frames frame ac st s).
Proof.
  revert frame ac s. induction st as [|f st IH]; intros frame ac s; simpl;
    unfold eof_in_frame, comma_or_end_in_frame.
  all: adv_cases. all: adv_eq skip_ws_length skip_ws.
  all: first [adv_close | eapply advances_weaken; [apply IH|]; simpl in *; lia].
Qed.

Lemma ignore_object_key_adv s : advances id (S (length s)) (ignore_object_key s).
Proof.
  unfold ignore_object_key. adv_cases. all: adv_eq skip_ws_length skip_ws. all: adv_eq ignore_str_adv ignore_str.
  all: adv_close.
Qed.

Lemma ignore_loop_adv fuel st s :
  length s < fuel -> advances id (S (length s)) (ignore_loop fuel st s).
Proof.
  revert st s. induction fuel as [|fuel IH]; intros st s Hf; [lia|]. cbn [ignore_loop].
  adv_cases. all: adv_eq ignore_token_adv ignore_token. all: adv_eq4 close_frames_adv close_frames.
  all: adv_eq ignore_object_key_adv ignore_object_key. all: first [adv_close | adv_rec IH].
Qed.

Section MapEntriesAdv.
Context {M : Type} (h : M -> string -> bytes -> result (M * bytes) json_error) (N : nat).
Hypothesis Hh : forall acc k t, length t < N -> advances snd (S (length t)) (h acc k t).

Lemma map_entries_adv fuel first acc s :
  length s < fuel -> length s < N -> advances snd (S (length s)) (map_entries h fuel first acc s).
Proof.
  revert first acc s. induction fuel as [|fuel IH]; intros first acc s Hf HN; [lia|].
  cbn [map_entries]. adv_cases. all: adv_eq skip_ws_length skip_ws.
  all: adv_eq parse_str_body_adv parse_str_body.
  all: repeat match goal with
       | E : h ?a ?k ?t = _ |- _ =>
           let A := fresh "A" in pose proof (Hh a k t ltac:(simpl in *; lia)) as A;
           rewrite E in A; clear E; cbn [advances fst snd] in A
       end.
  all: first [adv_close | adv_rec IH].
Qed.
End MapEntriesAdv.

Lemma map_entry_adv {M V : Type} ins (pval : bytes -> result (V * bytes) json_error) N
    (acc : M) k t :
  (forall t, length t < N -> advances snd (S (length t)) (pval t)) ->
  length t < N -> advances snd (S (length t)) (map_entry ins pval acc k t).
Proof.
  intros Hp HN. unfold map_entry. adv_cases. all: adv_eq parse_colon_adv parse_colon.
  all: repeat match goal with
       | Hp : forall t, _ -> advances _ _ (?p t), E : ?p ?x = _ |- _ =>
           let A := fresh "A" in pose proof (Hp x ltac:(simpl in *; lia)) as A;
           rewrite E in A; clear E; cbn [advances fst snd] in A
       end.
  all: adv_close.
Qed.

Lemma parse_map_adv {M V : Type} (empty : M) ins (pval : bytes -> result (V * bytes) json_error) N s :
  (forall t, length t < N -> advances snd (S (length t)) (pval t)) ->
  length s < N -> advances snd (S (length s)) (parse_map empty ins pval N s).
Proof.
  intros Hp HN. pose proof (fun acc k t => map_entry_adv ins pval N acc k t Hp) as Hh.
  unfold parse_map. adv_cases. all: adv_eq skip_ws_length skip_ws.
  all: repeat match goal with
       | Hh : forall acc k t, _ -> advances _ _ (?h acc k t), E : map_entries ?h ?n ?b ?e ?t = _ |- _ =>
           let A := fresh "A" in
           pose proof (map_entries_adv h n Hh n b e t ltac:(simpl in *; lia) ltac:(simpl in *; lia)) as A;
           rewrite E in A; clear E; cbn [advances fst snd] in A
       end.
  all: adv_eq end_map_adv end_map. all: adv_close.
Qed.

Lemma parse_scope_adv N s : length s < N -> advances snd (S (length s)) (parse_scope N s).
Proof. intros HN. apply parse_map_adv; [|done]. intros t _. apply parse_string_adv. Qed.

Lemma parse_projector_adv N s : length s < N -> advances snd (S (length s)) (parse_projector N s).
Proof. intros HN. apply parse_map_adv; [|done]. intros t Ht. by apply parse_scope_adv. Qed.

Lemma data_field_adv N acc key s :
  length s < N -> advances snd (S (length s)) (data_field N acc key s).
Proof.
  intros HN. unfold data_field. adv_cases. all: adv_eq parse_colon_adv parse_colon.
  all: repeat match goal with
       | E : parse_projector ?n ?x = _ |- _ =>
           let A := fresh "A" in pose proof (parse_projector_adv n x ltac:(simpl in *; lia)) as A;
           rewrite E in A; clear E; cbn [advances fst snd] in A
       | E : ignore_value ?n ?x = _ |- _ =>
           let A := fresh "A" in pose proof (ignore_loop_adv n [] x ltac:(simpl in *; lia)) as A;
           unfold ignore_value in E; rewrite E in A; clear E; cbn [advances fst snd id] in A
       end.
  all: adv_close.
Qed.

Lemma parse_data_adv N s : length s < N -> advances snd (S (length s)) (parse_data N s).
Proof.
  intros HN. unfold parse_data. adv_cases. all: adv_eq skip_ws_length skip_ws.
  all: repeat match goal with
       | E : map_entries (data_field ?n) _ true None ?t = _ |- _ =>
           let A := fresh "A" in
           pose proof (map_entries_adv (data_field n) n (data_field_adv n) n true None t
                         ltac:(simpl in *; lia) ltac:(simpl in *; lia)) as A;
           rewrite E in A; clear E; cbn [advances fst snd] in A
       | E : parse_projector ?n ?x = _ |- _ =>
           let A := fresh "A" in pose proof (parse_projector_adv n x ltac:(simpl in *; lia)) as A;
           rewrite E in A; clear E; cbn [advances fst snd] in A
       end.
  all: adv_eq end_map_adv end_map. all: adv_eq end_seq_adv end_seq. all: adv_close.
Qed.

(** ** What a successful parse returns *)

Lemma map_entries_inv {M : Type} (P : M -> Prop) h fuel first (acc : M) s r :
  (forall acc k t r, P acc -> h acc k t = Ok r -> P r.1) -> P acc ->
  map_entries h fuel first acc s = Ok r -> P r.1.
Proof.
  intros Hh. revert first acc s. induction fuel as [|fuel IH]; intros first acc s Hacc Hr; [done|].
  cbn [map_entries] in Hr. repeat (unfold result_bind in Hr; case_match); simplify_eq.
  all: first [done | eapply IH; [|exact Hr]; eapply Hh; eauto].
Qed.

Lemma parse_projector_coherent fuel s r :
  parse_projector fuel s = Ok r -> hm_keys_coherent components r.1.
Proof.
  unfold parse_projector, parse_map. intros Hr.
  repeat (unfold result_bind in Hr; case_match); simplify_eq; simpl.
  match goal with
  | E : map_entries _ _ _ _ _ = Ok _ |- _ =>
      apply (map_entries_inv (hm_keys_coherent components) _ _ _ _ _ _) in E; [exact E| |]
  end.
  - intros acc k t r' Hacc Hh. unfold map_entry in Hh. simpl_result. simpl. by apply hm_insert_coherent.
  - apply map_Forall_empty.
Qed.

(** The fuel [from_str] gives covers the store's loops. *)
Lemma ser_projector_length (ord : Scope -> list (string * string)) (l : list (PathBuf * Scope)) :
  length l < length (ser_map (fun sc => ser_scope (ord sc)) l) /\
  Forall (fun kv => length (ord kv.2) < length (ser_map (fun sc => ser_scope (ord sc)) l)) l.
Proof.
  destruct (ser_map_length (fun sc => ser_scope (ord sc)) l) as [H1 H2]. split; [done|].
  eapply Forall_impl; [exact H2|]. intros [pb sc] Hx. cbv beta in *. cbn [fst snd] in *.
  destruct (ser_map_length ser_str (ord sc)) as [H3 _].
  change (ser_map ser_str (ord sc)) with (ser_scope (ord sc)) in H3. lia.
Qed.

(** Re-inserting a well-formed store's entries, in any order, rebuilds it. *)
Lemma rebuild_data (l : list (PathBuf * Scope)) (d : Data) :
  l ≡ₚ data_entries d -> data_wf d ->
  mkData (foldl (fun m kv => hm_insert components kv.1 kv.2 m) ∅ l) = d.
Proof. intros Hl Hwf. rewrite (foldl_hm_insert_perm components l (projector d)); by destruct d. Qed.

Lemma from_str_ser_data (ord : Scope -> list (string * string)) (l : list (PathBuf * Scope)) (d : Data) :
  (forall sc, ord sc ≡ₚ map_to_list sc) -> l ≡ₚ data_entries d -> data_wf d ->
  from_str_data (string_of_list_ascii (ser_data ord l)) = Ok d.
Proof.
  intros Hord Hl Hwf. unfold from_str_data. rewrite list_ascii_of_string_of_list_ascii.
  destruct (ser_projector_length ord l) as [H1 H2].
  assert (Hlen : length (ser_map (fun sc => ser_scope (ord sc)) l) < length (ser_data ord l))
    by (unfold ser_data; cbn [length]; rewrite !length_app; cbn [length]; rewrite length_app; lia).
  pose proof (parse_data_ser (S (length (ser_data ord l))) ord l [] ltac:(lia) ltac:(lia)) as Hp.
  rewrite app_nil_r in Hp. rewrite Hp; [cbn; by rewrite (rebuild_data l d)| |done].
  eapply Forall_impl; [exact H2|]. intros kv Hx. cbv beta in *. lia.
Qed.

Lemma hex_val_range c v : hex_val c = Some v -> (0 <= v < 16)%Z.
Proof. unfold hex_val. repeat case_decide; intros; simplify_eq; lia. Qed.

(** [lor] of a multiple of [2^k] and a number below [2^k] is their sum. *)
Lemma lor_mul_pow2 (a b k : Z) : (0 <= k -> 0 <= b < 2 ^ k -> Z.lor (a * 2 ^ k) b = a * 2 ^ k + b)%Z.
Proof.
  intros Hk Hb.
  assert (Hl : Z.land (a * 2 ^ k) b = 0%Z).
  { apply Z.bits_inj'. intros i Hi. rewrite Z.land_spec, Z.bits_0.
    destruct (Z.lt_ge_cases i k).
    - rewrite Z.mul_pow2_bits_low; [done|lia].
    - rewrite <-(Z.mod_small b (2 ^ k)) by lia. rewrite Z.mod_pow2_bits_high by lia.
      apply andb_false_r. }
  rewrite Z.add_nocarry_lxor, Z.lxor_lor; done.
Qed.

(** A masked field tagged with high bits: [(x & (2^j - 1)) | (t * 2^j)]. *)
Lemma lor_land_tag (x t : Z) (j : Z) :
  (0 <= j -> Z.lor (Z.land x (Z.ones j)) (t * 2 ^ j) = t * 2 ^ j + x mod 2 ^ j)%Z.
Proof.
  intros Hj. rewrite Z.land_ones by done. rewrite Z.lor_comm.
  apply lor_mul_pow2; [done|]. apply Z.mod_pos_bound. lia.
Qed.

Lemma decode_hex4_range a b c d n : decode_hex4 a b c d = Some n -> (0 <= n <= 0xFFFF)%Z.
Proof.
  unfold decode_hex4. repeat case_match; intros; simplify_eq.
  repeat match goal with H : hex_val _ = Some _ |- _ => apply hex_val_range in H end.
  match goal with
  | |- (0 <= Z.lor (Z.lor (Z.shiftl ?a 12) (Z.shiftl ?b 8)) (Z.lor (Z.shiftl ?c 4) ?d) <= _)%Z =>
    rewrite !Z.shiftl_mul_pow2 by lia;
    rewrite (lor_mul_pow2 a (b * 2 ^ 8) 12), (lor_mul_pow2 c d 4) by (simpl; lia);
    replace (a * 2 ^ 12 + b * 2 ^ 8)%Z with ((a * 16 + b) * 2 ^ 8)%Z by (simpl; lia);
    rewrite (lor_mul_pow2 (a * 16 + b) (c * 2 ^ 4 + d) 8) by (simpl; lia)
  end.
  simpl. lia.
Qed.

Lemma data_field_coherent fuel acc key s r :
  (forall m, acc = Some m -> hm_keys_coherent components m) ->
  data_field fuel acc key s = Ok r -> forall m, r.1 = Some m -> hm_keys_coherent components m.
Proof.
  unfold data_field. intros Hacc Hr m Hm.
  repeat (unfold result_bind in Hr; case_match); simplify_eq; simpl in *; simplify_eq; eauto.
  by eapply parse_projector_coherent.
Qed.

Lemma data_entries_coherent fuel fuel' first acc s r :
  (forall m, acc = Some m -> hm_keys_coherent components m) ->
  map_entries (data_field fuel) fuel' first acc s = Ok r ->
  forall m, r.1 = Some m -> hm_keys_coherent components m.
Proof.
  intros Hacc E. eapply (map_entries_inv (fun o => forall m, o = Some m -> _)); [|exact Hacc|exact E].
  intros acc' k t r' Hacc' Hr. exact (data_field_coherent _ _ _ _ _ Hacc' Hr).
Qed.

(** ** Properties of the wire format *)

(** Every code point the string parser decodes ([0..0x10FFFF]) is
    pushed as one to four UTF-8 bytes, each below 256, so the [as u8]
    casts of [push_wtf8_codepoint] keep every bit. *)
Theorem encode_utf8_bytes (n : Z) :
  (0 <= n <= 0x10FFFF)%Z ->
  Forall (fun b => 0 <= b < 256)%Z (encode_utf8 n) /\ 1 <= length (encode_utf8 n) <= 4.
Proof.
  intros Hn. unfold encode_utf8.
  change 0x3F%Z with (Z.ones 6); change 0x80%Z with (2 * 2 ^ 6)%Z;
  change 0x1F%Z with (Z.ones 5); change 0xC0%Z with (6 * 2 ^ 5)%Z;
  change 0x0F%Z with (Z.ones 4); change 0xE0%Z with (14 * 2 ^ 4)%Z;
  change 0x07%Z with (Z.ones 3); change 0xF0%Z with (30 * 2 ^ 3)%Z.
  rewrite !lor_land_tag by lia.
  repeat case_decide; (split; [repeat constructor|simpl; lia]);
    match goal with
    | |- context [(?x mod 2 ^ ?j)%Z] => pose proof (Z.mod_pos_bound x (2 ^ j) ltac:(simpl; lia))
    | _ => idtac
    end; simpl in *; lia.
Qed.

(** A surrogate pair [\uD8xx\uDCxx] the parser accepts denotes a code
    point of the supplementary planes, [0x10000..0x10FFFF]: the [<< 10]
    and [|] of [parse_unicode_escape] neither overlap nor overflow. *)
Theorem surrogate_pair_range (n1 n2 : Z) :
  is_lead_surrogate n1 = true -> is_trail_surrogate n2 = true ->
  (0x10000 <= surrogate_pair n1 n2 <= 0x10FFFF)%Z.
Proof.
  unfold is_lead_surrogate, is_trail_surrogate, surrogate_pair. rewrite !bool_decide_eq_true.
  intros H1 H2. rewrite Z.shiftl_mul_pow2 by lia. rewrite lor_mul_pow2 by (simpl; lia). simpl. lia.
Qed.

(** C17: [from_str] always comes back with serde_json's own outcome: the
    fuel [S (length input)] never runs out, for the store and for a scope. *)
Theorem from_str_total (input : string) :
  from_str_data input <> Err OutOfFuel /\ from_str_scope input <> Err OutOfFuel.
Proof.
  unfold from_str_data, from_str_scope.
  pose proof (parse_data_adv (S (length (list_ascii_of_string input))) (list_ascii_of_string input)
                ltac:(lia)) as A1.
  pose proof (parse_scope_adv (S (length (list_ascii_of_string input))) (list_ascii_of_string input)
                ltac:(lia)) as A2.
  split; [destruct (parse_data _ _)|destruct (parse_scope _ _)]; simpl in *;
    unfold parse_end, result_bind; repeat case_match; congruence.
Qed.

(** Whatever [from_str] loads is a well-formed store: each entry is filed
    under the components of the [PathBuf] it keeps. *)
Lemma from_str_data_wf (input : string) (d : Data) : from_str_data input = Ok d -> data_wf d.
Proof.
  unfold from_str_data, parse_data, data_wf. intros H.
  repeat (unfold result_bind in H; case_match); simplify_eq; simpl.
  all: try (by eapply parse_projector_coherent).
  eapply data_entries_coherent; [|eassumption|eassumption]. done.
Qed.

(** A scope printed in any iteration order parses back to itself (the
    output of [main]'s [Print(None)]). *)
Lemma from_str_scope_ser (l : list (string * string)) (sc : Scope) :
  l ≡ₚ map_to_list sc -> from_str_scope (string_of_list_ascii (ser_scope l)) = Ok sc.
Proof.
  intros Hp. unfold from_str_scope. rewrite list_ascii_of_string_of_list_ascii.
  destruct (ser_map_length ser_str l) as [H1 _].
  pose proof (parse_scope_ser (S (length (ser_scope l))) l sc [] ltac:(unfold ser_scope; lia) Hp) as E.
  rewrite app_nil_r in E. by rewrite E.
Qed.

Lemma skip_ws_ser_map {V} (sv : V -> bytes) l t :
  skip_ws (ser_map sv l ++ t) = "{" :: (ser_entries sv true l ++ ["}"]) ++ t.
Proof. reflexivity. Qed.

(** C18: the loader also accepts the store as a one-element JSON array
    [[{...}]] (serde's sequence form of a struct), not only the object
    [{"projector": {...}}] the file format describes. *)
Theorem from_str_data_seq_form (ord : Scope -> list (string * string)) (l : list (PathBuf * Scope))
    (d : Data) :
  (forall sc, ord sc ≡ₚ map_to_list sc) -> l ≡ₚ data_entries d -> data_wf d ->
  from_str_data (string_of_list_ascii ("[" :: ser_map (fun sc => ser_scope (ord sc)) l ++ ["]"])) = Ok d.
Proof.
  intros Hord Hl Hwf. unfold from_str_data. rewrite list_ascii_of_string_of_list_ascii.
  destruct (ser_projector_length ord l) as [H1 H2].
  unfold parse_data. cbn [skip_ws Ascii.eqb]. rewrite skip_ws_ser_map. cbn -[parse_projector ser_map].
  rewrite parse_projector_ser; [|cbn [length]; rewrite length_app; lia| |done].
  - cbn. by rewrite (rebuild_data l d).
  - eapply Forall_impl; [exact H2|]. intros kv Hx. cbv beta in *. cbn [length]. rewrite length_app. lia.
Qed.

(** ** Witnesses *)

Lemma from_str_data_seq_form_witness :
  (forall sc, scope_entries sc ≡ₚ map_to_list sc) /\ data_entries get_data ≡ₚ data_entries get_data /\
  data_wf get_data /\
  from_str_data (string_of_list_ascii ("[" :: ser_map (fun sc => ser_scope (scope_entries sc))
                                                 (data_entries get_data) ++ ["]"])) = Ok get_data.
Proof.
  assert (H1 : forall sc, scope_entries sc ≡ₚ map_to_list sc) by (intros sc; reflexivity).
  assert (H2 : data_entries get_data ≡ₚ data_entries get_data) by reflexivity.
  assert (H3 : data_wf get_data) by (apply (bool_decide_unpack _); vm_compute; reflexivity).
  split; [exact H1 | split; [exact H2 | split; [exact H3 | exact (from_str_data_seq_form _ _ _ H1 H2 H3)]]].
Defined.
