(* ===== verification/JsonType.v ===== *)
(** * JsonType: what the program prints is JSON of the printed value's type

    The program writes JSON twice: [Projector::save] writes
    [serde_json::to_string(&self.data)] to the config file
    (src/projector.rs line 78) and [main] prints
    [serde_json::to_string(&value)] of [get_value_all]
    (src/bin/projector.rs line 16).  In serde's data model [struct Data]
    has the type [struct { projector: map<string, map<string, string>> }]
    and the printed scope the type [map<string, string>].  [json_ty] is
    that fragment of the data model; [str_char], [str_text] and the typing
    judgment [typed] are the grammar of RFC 8259 (compact form, no
    whitespace) of a text of each type, written independently of the
    printer of Json.v.  The theorems show that both printed texts always
    have the type of the printed value: every string is quoted, its quote,
    backslash and control bytes escaped, maps and the struct are delimited
    and comma-separated, and the struct's single field is named
    [projector]. *)
From S2P Require Import Prelude Path ProjectorRs Json.

Local Open Scope char_scope.
#[local] Set Warnings "-register-all".

(** ** The serde data model types of the printed values *)

Inductive json_ty : Type :=
| TStr
| TMap (v : json_ty)
| TStruct (fields : list (string * json_ty)).

(** [struct Data { projector: HashMap<PathBuf, HashMap<String, String>> }]:
    a [PathBuf] key is serialized as a string. *)
Definition ty_Data : json_ty := TStruct [("projector"%string, TMap (TMap TStr))].

(** [HashMap<&String, &String>], the result of [get_value_all]. *)
Definition ty_Scope : json_ty := TMap TStr.

(** ** The JSON grammar *)

Definition is_hex (c : ascii) : bool := bool_decide (is_Some (hex_val c)).

(** One character of a JSON string as text: an unescaped byte (not a
    control byte, quote or backslash), a two-byte escape, or [\u] and four
    hex digits. *)
Definition str_char (t : bytes) : bool :=
  match t with
  | [c] => bool_decide (32 <= nat_of_ascii c) && negb (Ascii.eqb c dquote) && negb (Ascii.eqb c bslash)
  | [b; e] => Ascii.eqb b bslash && bool_decide (e ∈ [dquote; bslash; "/"; "b"; "f"; "n"; "r"; "t"])
  | [b; u; h1; h2; h3; h4] => Ascii.eqb b bslash && Ascii.eqb u "u" && forallb is_hex [h1; h2; h3; h4]
  | _ => false
  end.

(** A JSON string: characters between two quotes. *)
Definition str_text (t : bytes) : Prop :=
  exists cs, Forall (fun c => str_char c = true) cs /\ t = dquote :: concat cs ++ [dquote].

(** Texts separated by commas. *)
Fixpoint sep_by (ts : list bytes) : bytes :=
  match ts with
  | [] => []
  | [t] => t
  | t :: ts' => t ++ "," :: sep_by ts'
  end.

(** A struct field name as text: an identifier between quotes. *)
Definition field_text (f : string) : bytes := dquote :: list_ascii_of_string f ++ [dquote].

(** The typing judgment: [typed ty t] when [t] is a compact JSON text of
    a value of type [ty].  A map is an object of string keys and values of
    its value type; a struct an object with its fields in order. *)
Inductive typed : json_ty -> bytes -> Prop :=
| ty_str t : str_text t -> typed TStr t
| ty_map ty (es : list (bytes * bytes)) :
    Forall (fun e => str_text e.1 /\ typed ty e.2) es ->
    typed (TMap ty) ("{" :: sep_by ((fun e => e.1 ++ ":" :: e.2) <$> es) ++ ["}"])
| ty_struct (fs : list (string * json_ty)) (vs : list bytes) :
    Forall2 (fun f v => typed f.2 v) fs vs ->
    typed (TStruct fs) ("{" :: sep_by (zip_with (fun f v => field_text f.1 ++ ":" :: v) fs vs) ++ ["}"]).

(** ** The printer's pieces are well typed *)

Lemma escape_byte_char (c : ascii) : str_char (escape_byte c) = true.
Proof. destruct c as [[] [] [] [] [] [] [] []]; reflexivity. Qed.

Lemma ser_str_text (s : string) : str_text (ser_str s).
Proof.
  exists (escape_byte <$> list_ascii_of_string s). split.
  - apply Forall_fmap, Forall_forall. intros c _. apply escape_byte_char.
  - unfold ser_str. f_equal. f_equal. induction (list_ascii_of_string s) as [|c l IH]; [done|].
    simpl. by rewrite IH.
Qed.

Lemma ser_entries_false {V} (sv : V -> bytes) (l : list (string * V)) :
  ser_entries sv false l = match l with [] => [] | _ => "," :: ser_entries sv true l end.
Proof. by destruct l as [|[k v] l]. Qed.

(** The compact formatter separates the entries by commas. *)
Lemma ser_entries_sep {V} (sv : V -> bytes) (l : list (string * V)) :
  ser_entries sv true l = sep_by ((fun kv => ser_str kv.1 ++ ":" :: sv kv.2) <$> l).
Proof.
  induction l as [|[k v] l IH]; [done|].
  cbn [ser_entries fmap list_fmap]. rewrite ser_entries_false, IH.
  destruct l as [|kv' l']; simpl; [by rewrite !app_nil_r|].
  by rewrite <-!app_assoc.
Qed.

Lemma ser_map_typed {V} (sv : V -> bytes) (ty : json_ty) (l : list (string * V)) :
  (forall v, typed ty (sv v)) -> typed (TMap ty) (ser_map sv l).
Proof.
  intros Hv. unfold ser_map. rewrite ser_entries_sep.
  replace ((fun kv => ser_str kv.1 ++ ":" :: sv kv.2) <$> l)
    with ((fun e : bytes * bytes => e.1 ++ ":" :: e.2) <$> ((fun kv => (ser_str kv.1, sv kv.2)) <$> l))
    by (rewrite <-list_fmap_compose; reflexivity).
  constructor. apply Forall_fmap, Forall_forall. intros kv _. split; [apply ser_str_text | apply Hv].
Qed.

Lemma ser_scope_typed (l : list (string * string)) : typed ty_Scope (ser_scope l).
Proof. apply ser_map_typed. intros v. constructor. apply ser_str_text. Qed.

(** ** What the program prints *)

(** C9: the type of the printed JSON: the config file [save] writes
    ([print_data], the text of [serde_json::to_string(&self.data)] when
    it succeeds: the derived [Serialize] of [Data] in [HashMap] order) is
    a JSON text of the type of
    [struct Data], and the line [main] prints for [projector] without
    arguments ([serde_json::to_string] of [get_value_all]) a JSON text of
    the type of a string map, for every store and every scope. *)
Theorem printed_json_typed (d : Data) (sc : Scope) :
  typed ty_Data (list_ascii_of_string (print_data d)) /\
  typed ty_Scope (list_ascii_of_string (to_string_scope sc)).
Proof.
  unfold print_data, to_string_scope, ser_data, ty_Data.
  rewrite !list_ascii_of_string_of_list_ascii. split; [|apply ser_scope_typed].
  set (v := ser_map (fun sc => ser_scope (scope_entries sc)) (data_entries d)).
  change ("{" :: ser_str "projector" ++ ":" :: v ++ ["}"])
    with ("{" :: sep_by (zip_with (fun f v => field_text f.1 ++ ":" :: v)
                           [("projector"%string, TMap (TMap TStr))] [v]) ++ ["}"]).
  repeat constructor. apply ser_map_typed. intros sc0. apply ser_scope_typed.
Qed.
