(* ===== verification/Fs.v ===== *)
(** * Fs: the filesystem as the program uses it

    [Projector::save] and [Projector::from_config] (src/projector.rs lines
    71-98) make four calls into [std::fs]: [metadata(p).is_ok()],
    [read_to_string], [create_dir_all] and [write].  The class
    [FileSystem] states them over an abstract state: the two calls that
    change it return the state they leave with their [result], also on an
    error ([create_dir_all] may have created some directories before it
    fails).  [FileSystemLaws] is what the development relies on (a
    successful write is read back);
    the persistence and [main] theorems of Main.v are proved against that
    interface only.  [MemFs] is an in-memory instance (directories, files,
    read-only directories), with [create_dir_all] following std's
    algorithm, which discharges the laws and runs the witnesses.

    A path is looked up by its components ([Path.components]), as the OS
    resolves repeated and trailing separators and [.]; symbolic links and
    the resolution of [..] are not modelled. *)
From S2P Require Import Prelude Path.

(** The [io::ErrorKind]s the calls report. *)
Inductive io_error : Type :=
| NotFound | PermissionDenied | AlreadyExists | IsADirectory | NotADirectory | Uncategorized.

#[export] Instance io_error_eq_dec : EqDecision io_error.
Proof. solve_decision. Defined.

Class FileSystem (FS : Type) := {
  fs_metadata_ok : FS -> Path -> bool;
  fs_read_to_string : FS -> Path -> result string io_error;
  fs_create_dir_all : FS -> Path -> FS * result unit io_error;
  fs_write : FS -> Path -> string -> FS * result unit io_error
}.

Class FileSystemLaws (FS : Type) `{FileSystem FS} := {
  fs_write_read fs p c fs' : fs_write fs p c = (fs', Ok ()) -> fs_read_to_string fs' p = Ok c;
  fs_write_metadata fs p c fs' : fs_write fs p c = (fs', Ok ()) -> fs_metadata_ok fs' p = true
}.

(** ** An in-memory filesystem *)
Module MemFs.

Record MemFs : Type := mkMemFs {
  mem_dirs : gset Path;
  mem_files : gmap Path string;
  mem_readonly : gset Path   (** directories whose entries cannot be created or written *)
}.

(** The empty path (a relative path's base, the working directory) and the
    root always exist as directories. *)
Definition is_dir (fs : MemFs) (p : Path) : bool :=
  bool_decide (p = []) || bool_decide (p = [RootDir]) || bool_decide (p ∈ mem_dirs fs).

Definition is_file (fs : MemFs) (p : Path) : bool := bool_decide (is_Some (mem_files fs !! p)).

Definition metadata_ok (fs : MemFs) (p : Path) : bool := is_dir fs p || is_file fs p.

Definition read_to_string (fs : MemFs) (p : Path) : result string io_error :=
  match mem_files fs !! p with
  | Some c => Ok c
  | None => if is_dir fs p then Err IsADirectory else Err NotFound
  end.

(** The parent directory of [p] must exist, be a directory and be writable. *)
Definition check_parent (fs : MemFs) (p : Path) : result unit io_error :=
  match parent p with
  | Some q =>
      if is_dir fs q then (if bool_decide (q ∈ mem_readonly fs) then Err PermissionDenied else Ok tt)
      else if is_file fs q then Err NotADirectory
      else Err NotFound
  | None => Err NotFound
  end.

(** [mkdir]. *)
Definition mkdir (fs : MemFs) (p : Path) : result MemFs io_error :=
  if metadata_ok fs p then Err AlreadyExists
  else _ ←? check_parent fs p ; Ok (mkMemFs ({[p]} ∪ mem_dirs fs) (mem_files fs) (mem_readonly fs)).

(** [DirBuilder::create_dir_all]: [mkdir]; on [NotFound] create the parent
    first and [mkdir] again; an error on a path that is a directory is a
    success.  The directories made before an error stay.  The fuel
    bounds the recursion on the parent ([length p] suffices,
    [create_dir_all_ok]). *)
Fixpoint create_dir_all_rec (fuel : nat) (fs : MemFs) (p : Path) : MemFs * result unit io_error :=
  match fuel with
  | O => (fs, Err Uncategorized)
  | S fuel' =>
    if bool_decide (p = []) then (fs, Ok ()) else
    match mkdir fs p with
    | Ok fs' => (fs', Ok ())
    | Err NotFound =>
        match parent p with
        | Some q =>
            ⟨fs1, _⟩ ⇐ create_dir_all_rec fuel' fs q ;
            match mkdir fs1 p with
            | Ok fs2 => (fs2, Ok ())
            | Err e => if is_dir fs1 p then (fs1, Ok ()) else (fs1, Err e)
            end
        | None => (fs, Err Uncategorized)
        end
    | Err e => if is_dir fs p then (fs, Ok ()) else (fs, Err e)
    end
  end.

Definition create_dir_all (fs : MemFs) (p : Path) : MemFs * result unit io_error :=
  create_dir_all_rec (S (length p)) fs p.

(** [std::fs::write]: create or truncate the file; on an error nothing
    is written. *)
Definition write (fs : MemFs) (p : Path) (c : string) : MemFs * result unit io_error :=
  if is_dir fs p then (fs, Err IsADirectory)
  else match check_parent fs p with
       | Ok _ => (mkMemFs (mem_dirs fs) (<[p := c]> (mem_files fs)) (mem_readonly fs), Ok ())
       | Err e => (fs, Err e)
       end.

#[global] Instance mem_fs : FileSystem MemFs := {
  fs_metadata_ok := metadata_ok;
  fs_read_to_string := read_to_string;
  fs_create_dir_all := create_dir_all;
  fs_write := write
}.

(** A filesystem with only the root directory. *)
Definition empty_fs : MemFs := mkMemFs ∅ ∅ ∅.

#[global] Instance mem_fs_laws : FileSystemLaws MemFs.
Proof.
  assert (Hw : forall fs p c fs', write fs p c = (fs', Ok ()) ->
                 fs' = mkMemFs (mem_dirs fs) (<[p := c]> (mem_files fs)) (mem_readonly fs)).
  { unfold write. intros fs p c fs' H. repeat case_match; by simplify_eq. }
  split; intros fs p c fs' H; apply Hw in H; subst; simpl.
  - unfold read_to_string. simpl. by rewrite lookup_insert_eq.
  - unfold metadata_ok, is_file. simpl. rewrite lookup_insert_eq. apply orb_true_r.
Qed.

Lemma is_dir_add (fs : MemFs) p r :
  is_dir (mkMemFs ({[p]} ∪ mem_dirs fs) (mem_files fs) (mem_readonly fs)) r = true <->
  r = p \/ is_dir fs r = true.
Proof.
  unfold is_dir. simpl. rewrite !orb_true_iff, !bool_decide_eq_true, elem_of_union, elem_of_singleton.
  tauto.
Qed.

Lemma mkdir_ok (fs : MemFs) p q :
  metadata_ok fs p = false -> parent p = Some q -> is_dir fs q = true -> q ∉ mem_readonly fs ->
  mkdir fs p = Ok (mkMemFs ({[p]} ∪ mem_dirs fs) (mem_files fs) (mem_readonly fs)).
Proof.
  intros Hm Hp Hq Hro. unfold mkdir, check_parent. rewrite Hm, Hp, Hq, bool_decide_eq_false_2 by done.
  reflexivity.
Qed.

(** [create_dir_all] succeeds on a well-formed path none of whose
    ancestors is a file or a read-only directory; it only adds directories,
    the path's prefixes. *)
Lemma create_dir_all_ok fuel (fs : MemFs) p :
  length p < fuel -> path_wf p = true ->
  Forall (fun q => is_file fs q = false /\ q ∉ mem_readonly fs) (ancestors p) ->
  exists fs', create_dir_all_rec fuel fs p = (fs', Ok ()) /\ is_dir fs' p = true /\
    mem_files fs' = mem_files fs /\ mem_readonly fs' = mem_readonly fs /\
    (forall r, is_dir fs' r = true -> is_dir fs r = true \/ r `prefix_of` p).
Proof.
  revert fs p. induction fuel as [|n IH]; intros fs p Hlen Hwf Hpre; [lia|]. cbn [create_dir_all_rec].
  case_bool_decide as Hnil.
  { subst. exists fs. do 4 (split; [done|]). auto. }
  rewrite ancestors_unfold in Hpre. apply Forall_cons in Hpre as [[Hfp Hrop] Hanc].
  destruct (metadata_ok fs p) eqn:Hm.
  { assert (Hd : is_dir fs p = true) by (unfold metadata_ok in Hm; rewrite Hfp in Hm; by destruct (is_dir fs p)).
    unfold mkdir. rewrite Hm, Hd. exists fs. do 4 (split; [done|]). auto. }
  assert (Hroot : p <> [RootDir]) by (intros ->; unfold metadata_ok, is_dir in Hm; simpl in Hm; done).
  destruct (parent_wf_Some p Hwf Hnil Hroot) as [q Hq]. rewrite Hq in Hanc.
  pose proof (parent_prefix _ _ Hq) as Hqp. pose proof (parent_length _ _ Hq) as Hql.
  assert (Hfq : is_file fs q = false /\ q ∉ mem_readonly fs)
    by (rewrite ancestors_unfold in Hanc; by apply Forall_cons in Hanc as [? _]).
  destruct Hfq as [Hfq Hroq].
  destruct (is_dir fs q) eqn:Hdq.
  { rewrite (mkdir_ok fs p q) by done. eexists; split; [reflexivity|].
    split; [apply is_dir_add; by left|]. split; [done|]. split; [done|].
    intros r [->|?]%is_dir_add; auto. }
  assert (Hnf : mkdir fs p = Err NotFound).
  { unfold mkdir, check_parent. by rewrite Hm, Hq, Hdq, Hfq. }
  rewrite Hnf, Hq.
  destruct (IH fs q ltac:(lia) (parent_wf _ _ Hwf Hq) Hanc) as (fs1 & Hc & Hd1 & Hf1 & Hr1 & Hdirs1).
  rewrite Hc. cbn [st_bind].
  assert (Hm1 : metadata_ok fs1 p = false).
  { unfold metadata_ok, is_file in *. rewrite Hf1. destruct (is_dir fs1 p) eqn:Hd; [|done].
    destruct (Hdirs1 p Hd) as [Hd'|Hpq].
    - by rewrite Hd' in Hm.
    - apply prefix_length in Hpq. lia. }
  rewrite (mkdir_ok fs1 p q) by (rewrite ?Hr1; done).
  eexists; split; [reflexivity|]. split; [apply is_dir_add; by left|]. simpl. split; [done|]. split; [done|].
  intros r [->|Hr]%is_dir_add; [by right|]. destruct (Hdirs1 r Hr) as [?|?]; [by left|].
  right. by transitivity q.
Qed.

Lemma mkdir_files (fs fs' : MemFs) p : mkdir fs p = Ok fs' -> mem_files fs' = mem_files fs.
Proof.
  unfold mkdir. destruct (metadata_ok fs p); [done|].
  destruct (check_parent fs p); simpl; intros H; by simplify_eq.
Qed.

(** [create_dir_all] writes no file, whether it succeeds or fails. *)
Lemma create_dir_all_files fuel (fs : MemFs) p :
  mem_files (create_dir_all_rec fuel fs p).1 = mem_files fs.
Proof.
  revert fs p. induction fuel as [|n IH]; intros fs p; [done|]. cbn [create_dir_all_rec].
  case_bool_decide; [done|].
  destruct (mkdir fs p) as [fs'|[]] eqn:Hm; try (simpl; case_match; done).
  - by apply mkdir_files in Hm.
  - destruct (parent p) as [q|]; [|done].
    specialize (IH fs q). destruct (create_dir_all_rec n fs q) as [fs1 [[]|e]]; simpl in *; [|done].
    destruct (mkdir fs1 p) eqn:Hm1; [apply mkdir_files in Hm1; simpl; congruence|].
    case_match; simpl; congruence.
Qed.

End MemFs.
