(* ===== verification/Main.v ===== *)
(** * Main: persistence and the command-line entry point

    [Projector::save] and [Projector::from_config] (src/projector.rs lines
    71-98) over the filesystem interface of Fs.v and the serde_json model
    of Json.v, and [main] (src/bin/projector.rs lines 9-36): parse the
    configuration, load the store, run one operation, print, save.  Its
    standard output is the list of the lines [println!] writes.  The
    theorems are proved for every [FileSystemLaws] instance: what [save]
    writes [from_config] loads back; loading never fails; an [Add] is seen
    by the next [Print]; a [Print] writes nothing; a [Remove] always
    rewrites the file; a corrupt file is replaced on the next mutation.
    [save] and [main] thread the filesystem: they return the state they
    leave also on an error, so directories created before a failure stay.
    For the in-memory filesystem, [save] succeeds whenever the directories
    of the config path can be created and the directory keys are UTF-8,
    and an [add] from a working directory that is not UTF-8 fails without
    writing a file. *)
From S2P Require Import Prelude Path ProjectorRs Operation Json Fs.

Local Open Scope string_scope.

(** The errors [main] and [save] return ([anyhow::Error]): a configuration
    error of [Config::try_from], an I/O error of [create_dir_all] or
    [write], or the serde_json error of [to_string]. *)
Inductive main_error : Type :=
| ConfigError (e : Error)
| IoError (e : io_error)
| JsonError (e : json_error).

Section Persistence.
Context {fsT : Type} `{FileSystem fsT}.

(** [pub fn save(&self) -> Result<()>]: create the config's directory when
    [metadata] fails, serialise the store, write it over the file; each
    [?] stops at an error, keeping what was done before it. *)
Definition save (self : Projector) (fs : fsT) : fsT * result unit main_error :=
  ⟨fs1, _⟩ ⇐ match parent (components (config self)) with
             | Some p =>
                 if fs_metadata_ok fs p then (fs, Ok ())
                 else st_map_err IoError (fs_create_dir_all fs p)
             | None => (fs, Ok ())
             end ;
  ⟨fs2, contents⟩ ⇐ (fs1, map_err JsonError (to_string_data (data self))) ;
  st_map_err IoError (fs_write fs2 (components (config self)) contents).

(** The literal [{"projector": {}}] of [from_config]. *)
Definition default_contents : string :=
  string_of_list_ascii
    (["{"; dquote]%char ++ list_ascii_of_string "projector" ++ [dquote; ":"; " "; "{"; "}"; "}"]%char).

(** [pub fn from_config(config: PathBuf, pwd: PathBuf) -> Self]: an empty
    store, replaced by the file's contents when the file exists and they
    parse; an unreadable file reads as [default_contents]. *)
Definition from_config (fs : fsT) (config pwd : PathBuf) : Projector :=
  let data := mkData ∅ in
  let data :=
    if fs_metadata_ok fs (components config) then
      let contents := match fs_read_to_string fs (components config) with
                      | Ok c => c
                      | Err _ => default_contents
                      end in
      match from_str_data contents with
      | Ok curr_data => curr_data
      | Err _ => data
      end
    else data in
  mkProjector config pwd data.

(** [fn main() -> Result<()>], after [Opts::parse()]: the configuration, the
    store, then one operation; returns the filesystem it leaves and the
    lines printed, or the error. *)
Definition main (env : Env) (opts : Opts) (fs : fsT) : fsT * result (list string) main_error :=
  match config_try_from env opts with
  | Err e => (fs, Err (ConfigError e))
  | Ok config =>
    let proj := from_config fs (cfg_config config) (cfg_pwd config) in
    match operation config with
    | Print None => (fs, Ok [to_string_scope (get_value_all proj)])
    | Print (Some key) =>
        (fs, Ok (match get_value proj key with Some value => [value] | None => [] end))
    | Add key value => ⟨fs', _⟩ ⇐ save (set_value proj key value) fs ; (fs', Ok [])
    | Remove key => ⟨fs', _⟩ ⇐ save (remove_value proj key) fs ; (fs', Ok [])
    end
  end.

End Persistence.

(** ** Fixtures: a config file under [/p], a working directory, a corrupt file *)
Definition cfg_path : PathBuf := "/p/projector.json".

Definition opts_of (args : list string) : Opts := mkOpts args (Some "/home/u") (Some cfg_path).

Definition corrupt_fs : MemFs.MemFs :=
  MemFs.mkMemFs {[components "/p"]} {[components cfg_path := "oops"]} ∅.

(** The filesystem a run leaves. *)
Definition fs_after {A} (r : MemFs.MemFs * result A main_error) : MemFs.MemFs := r.1.

(** A working directory that is not UTF-8: [/home/] and the byte 0xFF. *)
Definition bad_pwd : PathBuf := ("/home/" +:+ String (Ascii true true true true true true true true) "")%string.

(** ** Loading and saving *)

Section PersistenceLemmas.
Context {fsT : Type} `{FileSystemLaws fsT}.

Lemma default_contents_empty : from_str_data default_contents = Ok (mkData ∅).
Proof. vm_compute. reflexivity. Qed.

(** [from_config] keeps its arguments and loads some store. *)
Lemma from_config_shape (fs : fsT) c pwd :
  from_config fs c pwd = mkProjector c pwd (data (from_config fs c pwd)).
Proof. reflexivity. Qed.

Lemma from_config_Ok (fs : fsT) c pwd s d :
  fs_metadata_ok fs (components c) = true -> fs_read_to_string fs (components c) = Ok s ->
  from_str_data s = Ok d -> data (from_config fs c pwd) = d.
Proof. intros Hm Hr Hs. unfold from_config. simpl. by rewrite Hm, Hr, Hs. Qed.

(** The store [from_config] loads is well formed. *)
Lemma from_config_wf (fs : fsT) c pwd : data_wf (data (from_config fs c pwd)).
Proof.
  unfold from_config. simpl. repeat case_match; try (eapply from_str_data_wf; eassumption);
    apply map_Forall_empty.
Qed.

(** A successful [save] ends with the write of the printed store. *)
Lemma save_Ok_write (P : Projector) (fs fs' : fsT) :
  save P fs = (fs', Ok ()) ->
  exists fs1, fs_write fs1 (components (config P)) (print_data (data P)) = (fs', Ok ()).
Proof.
  unfold save. intros Hs. simpl_result. unfold to_string_data in *.
  destruct (paths_utf8 (data P)); simplify_eq. eauto.
Qed.

(** What a successful [save] leaves: the config file holds the store. *)
Lemma save_Ok (P : Projector) (fs fs' : fsT) :
  save P fs = (fs', Ok ()) ->
  fs_read_to_string fs' (components (config P)) = Ok (print_data (data P)).
Proof. intros (fs1 & Hw)%save_Ok_write. by eapply fs_write_read. Qed.

Lemma save_Ok_metadata (P : Projector) (fs fs' : fsT) :
  save P fs = (fs', Ok ()) -> fs_metadata_ok fs' (components (config P)) = true.
Proof. intros (fs1 & Hw)%save_Ok_write. by eapply fs_write_metadata. Qed.

(** The [Add] and [Remove] arms of [main] succeed exactly when [save] does. *)
Lemma save_arm_Ok (m : fsT * result unit main_error) (fs' : fsT) (out : list string) :
  st_bind m (fun fs1 _ => (fs1, Ok [])) = (fs', Ok out) -> m = (fs', Ok ()) /\ out = [].
Proof. destruct m as [fs1 [[]|e]]; simpl; intros Hm; by simplify_eq. Qed.

Lemma print_data_roundtrip (d : Data) : data_wf d -> from_str_data (print_data d) = Ok d.
Proof. intros Hwf. by apply from_str_ser_data. Qed.

(** The store a successful [save] wrote is what [from_config] loads. *)
Lemma save_load (P : Projector) (fs fs' : fsT) pwd' :
  data_wf (data P) -> save P fs = (fs', Ok ()) -> data (from_config fs' (config P) pwd') = data P.
Proof.
  intros Hwf Hs. eapply from_config_Ok; [by eapply save_Ok_metadata|by eapply save_Ok|].
  by apply print_data_roundtrip.
Qed.

Lemma set_value_wf (P : Projector) key value : data_wf (data P) -> data_wf (data (set_value P key value)).
Proof. unfold data_wf. simpl. eauto with projector. Qed.

Lemma remove_value_wf (P : Projector) key : data_wf (data P) -> data_wf (data (remove_value P key)).
Proof. unfold data_wf. simpl. eauto with projector. Qed.

End PersistenceLemmas.

Lemma config_try_from_explicit (env : Env) (args : list string) (op : Operation) (pwd cfg : PathBuf) :
  try_from args = Ok op -> config_try_from env (mkOpts args (Some pwd) (Some cfg)) = Ok (mkConfig op pwd cfg).
Proof. intros Ht. unfold config_try_from. simpl. by rewrite Ht. Qed.

(** The store [set_value] makes from an empty one. *)
Lemma set_value_empty (c pwd : PathBuf) key value :
  data (set_value (mkProjector c pwd (mkData ∅)) key value) =
  mkData {[components pwd := (pwd, {[key := value]})]}.
Proof. unfold set_value, hm_entry_or_default. simpl. by rewrite lookup_empty, insert_empty. Qed.

(** ** Theorems on persistence and [main] *)

Section MainTheorems.
Context {fsT : Type} `{FileSystemLaws fsT}.

(** C19: after a successful [save], [from_config] on the same config path
    loads exactly the store that was saved; and the file would load back
    the same store whatever order the two [HashMap]s iterate in ([save]
    prints in one order, [ser_data] in any): serde_json's printer and
    parser are inverse on well-formed stores. *)
Theorem save_then_load (P : Projector) (fs fs' : fsT) (pwd' : PathBuf) :
  data_wf (data P) -> save P fs = (fs', Ok ()) ->
  from_config fs' (config P) pwd' = mkProjector (config P) pwd' (data P) /\
  (forall (ord : Scope -> list (string * string)) (l : list (PathBuf * Scope)),
     (forall sc, ord sc ≡ₚ map_to_list sc) -> l ≡ₚ data_entries (data P) ->
     from_str_data (string_of_list_ascii (ser_data ord l)) = Ok (data P)).
Proof.
  intros Hwf Hs. split; [rewrite from_config_shape; f_equal; by eapply save_load|].
  intros ord l Hord Hl. by apply from_str_ser_data.
Qed.

(** C20: loading never fails: a missing config file, one that cannot be
    read, and one whose contents do not parse all give the empty store. *)
Theorem from_config_tolerant (fs : fsT) (c pwd : PathBuf) :
  (fs_metadata_ok fs (components c) = false \/
   (exists e, fs_read_to_string fs (components c) = Err e) \/
   (exists s e, fs_read_to_string fs (components c) = Ok s /\ from_str_data s = Err e)) ->
  data (from_config fs c pwd) = mkData ∅.
Proof.
  unfold from_config. simpl. intros [Hm|[[e Hr]|(s & e & Hr & Hs)]].
  - by rewrite Hm.
  - rewrite Hr, default_contents_empty. by case_match.
  - rewrite Hr, Hs. by case_match.
Qed.

(** C21: [projector add key value] followed by [projector key] with the
    same config file and directory prints [value]; the print writes
    nothing. *)
Theorem main_add_then_print (env : Env) (fs fs' : fsT) (out : list string) (key value : string)
    (cfg pwd : PathBuf) :
  key <> "add" -> key <> "rm" ->
  main env (mkOpts ["add"; key; value] (Some pwd) (Some cfg)) fs = (fs', Ok out) ->
  main env (mkOpts [key] (Some pwd) (Some cfg)) fs' = (fs', Ok [value]).
Proof.
  intros Hk1 Hk2 Hm. unfold main in *.
  rewrite (config_try_from_explicit _ _ (Add key value)) in Hm by (apply parses_to_try_from; constructor).
  rewrite (config_try_from_explicit _ _ (Print (Some key))) by (by apply parses_to_try_from; constructor).
  simpl in Hm |- *. apply save_arm_Ok in Hm as [Hs _].
  pose proof (save_load _ fs fs' pwd (set_value_wf _ key value (from_config_wf fs cfg pwd)) Hs) as E.
  change (config (set_value (from_config fs cfg pwd) key value)) with cfg in E.
  assert (E' : from_config fs' cfg pwd = set_value (from_config fs cfg pwd) key value)
    by (rewrite from_config_shape, E; reflexivity).
  rewrite E', get_value_resolve, ancestors_unfold, resolve_cons.
  rewrite scope_at_set_value, decide_True by done. simpl. by rewrite lookup_insert_eq.
Qed.

(** C22: [projector] with no argument writes nothing and prints one line,
    a JSON object that parses back to the merged scope of the directory. *)
Theorem main_print_all (env : Env) (opts : Opts) (fs : fsT) (cfg : Config) :
  config_try_from env opts = Ok cfg -> operation cfg = Print None ->
  exists line, main env opts fs = (fs, Ok [line]) /\
    from_str_scope line = Ok (get_value_all (from_config fs (cfg_config cfg) (cfg_pwd cfg))).
Proof.
  intros Hc Hop. unfold main. rewrite Hc, Hop. eexists. split; [reflexivity|].
  by apply from_str_scope_ser.
Qed.

(** C23: [projector rm key] always rewrites the config file with the
    loaded store minus [key], also when [key] was not set there and the
    store is unchanged (the file is then created or rewritten as is). *)
Theorem main_remove_rewrites (env : Env) (opts : Opts) (fs fs' : fsT) (out : list string)
    (cfg : Config) (key : string) :
  config_try_from env opts = Ok cfg -> operation cfg = Remove key ->
  main env opts fs = (fs', Ok out) ->
  fs_read_to_string fs' (components (cfg_config cfg)) =
    Ok (print_data (data (remove_value (from_config fs (cfg_config cfg) (cfg_pwd cfg)) key))).
Proof.
  intros Hc Hop Hm. unfold main in Hm. rewrite Hc, Hop in Hm.
  apply save_arm_Ok in Hm as [Hs _]. by apply save_Ok in Hs.
Qed.

(** C24: when the config file does not parse, [projector add key value]
    replaces it with a store holding only [key]: whatever the corrupt file
    held is lost. *)
Theorem main_add_corrupt (env : Env) (opts : Opts) (fs fs' : fsT) (out : list string) (cfg : Config)
    (key value s : string) (e : json_error) :
  config_try_from env opts = Ok cfg -> operation cfg = Add key value ->
  fs_read_to_string fs (components (cfg_config cfg)) = Ok s -> from_str_data s = Err e ->
  main env opts fs = (fs', Ok out) ->
  fs_read_to_string fs' (components (cfg_config cfg)) =
    Ok (print_data (mkData {[components (cfg_pwd cfg) := (cfg_pwd cfg, {[key := value]})]})).
Proof.
  intros Hc Hop Hr Hp Hm. unfold main in Hm. rewrite Hc, Hop in Hm.
  apply save_arm_Ok in Hm as [Hs _]. apply save_Ok in Hs. etransitivity; [exact Hs|].
  assert (E : from_config fs (cfg_config cfg) (cfg_pwd cfg) = mkProjector (cfg_config cfg) (cfg_pwd cfg) (mkData ∅)).
  { unfold from_config. rewrite Hr, Hp. by case_match. }
  by rewrite E, set_value_empty.
Qed.

End MainTheorems.

(** ** Non-UTF-8 paths and the in-memory filesystem *)

(** [set_value] files the write under [pwd] or the key already there. *)
Lemma paths_utf8_set_value (P : Projector) key value :
  paths_utf8 (data P) = true -> path_utf8 (pwd P) = true ->
  paths_utf8 (data (set_value P key value)) = true.
Proof.
  rewrite !paths_utf8_spec. intros Hu Hpw. simpl. unfold hm_entry_or_default.
  apply map_Forall_insert_2; [|done].
  destruct (projector (data P) !! components (pwd P)) as [[k0 v]|] eqn:E; [exact (Hu _ _ E)|done].
Qed.

(** A write from a working directory without a scope that is not UTF-8
    cannot be serialised. *)
Lemma to_string_set_value_not_utf8 (P : Projector) key value :
  path_utf8 (pwd P) = false -> scope_at (data P) (components (pwd P)) = None ->
  to_string_data (data (set_value P key value)) = Err PathNotUtf8.
Proof.
  intros Hpw Hnone. unfold to_string_data. destruct (paths_utf8 _) eqn:E; [|done].
  apply paths_utf8_spec in E. unfold scope_at in Hnone. apply fmap_None in Hnone.
  specialize (E (components (pwd P))). simpl in E. unfold hm_entry_or_default in E.
  rewrite lookup_insert_eq, Hnone in E. pose proof (E _ eq_refl) as E1. simpl in E1. congruence.
Qed.

Lemma write_mem_ok (fs : MemFs.MemFs) (c p : Path) (s : string) :
  parent c = Some p -> MemFs.is_dir fs p = true -> p ∉ MemFs.mem_readonly fs -> MemFs.is_dir fs c = false ->
  exists fs', MemFs.write fs c s = (fs', Ok ()).
Proof.
  intros Hp Hd Hro Hc. unfold MemFs.write, MemFs.check_parent.
  rewrite Hc, Hp, Hd, bool_decide_eq_false_2 by done. by eexists.
Qed.

(** [save] succeeds when every directory key is UTF-8, no ancestor of the
    config file's directory is a file or read-only and the config path is
    not a directory. *)
Lemma save_mem_ok (P : Projector) (fs : MemFs.MemFs) (p : Path) :
  paths_utf8 (data P) = true ->
  parent (components (config P)) = Some p ->
  Forall (fun q => MemFs.is_file fs q = false /\ q ∉ MemFs.mem_readonly fs) (ancestors p) ->
  MemFs.is_dir fs (components (config P)) = false ->
  exists fs', save P fs = (fs', Ok ()).
Proof.
  intros Hu Hp Hpre Hc. unfold save, to_string_data. rewrite Hp, Hu. simpl.
  pose proof Hpre as Hp'. rewrite ancestors_unfold in Hp'. apply Forall_cons in Hp' as [[Hfp Hrop] _].
  pose proof (parent_length _ _ Hp) as Hl.
  destruct (MemFs.metadata_ok fs p) eqn:Hm; cbn [st_bind].
  - assert (Hd : MemFs.is_dir fs p = true)
      by (unfold MemFs.metadata_ok in Hm; rewrite Hfp in Hm; by destruct (MemFs.is_dir fs p)).
    destruct (write_mem_ok fs _ p (print_data (data P)) Hp Hd Hrop Hc) as [fs' Hw].
    rewrite Hw. by eexists.
  - destruct (MemFs.create_dir_all_ok (S (length p)) fs p ltac:(lia)
                (parent_wf _ _ (components_wf _) Hp) Hpre) as (fs1 & Hc1 & Hd1 & Hf1 & Hr1 & Hdirs1).
    unfold MemFs.create_dir_all. rewrite Hc1. cbn [st_map_err st_bind fst snd map_err].
    destruct (write_mem_ok fs1 _ p (print_data (data P)) Hp Hd1) as [fs' Hw]; [by rewrite Hr1| |].
    + destruct (MemFs.is_dir fs1 (components (config P))) eqn:Hd; [|done].
      destruct (Hdirs1 _ Hd) as [Hd'|Hpq]; [by rewrite Hd' in Hc|]. apply prefix_length in Hpq. lia.
    + rewrite Hw. by eexists.
Qed.

(** C25: on the in-memory filesystem, [projector add key value] succeeds
    (creating the missing directories) whenever the working directory and
    the directory keys of the loaded store are UTF-8, no ancestor of the
    config file's directory is a file or read-only and the config path is
    not a directory; the file then holds the updated store. *)
Theorem main_add_succeeds (env : Env) (opts : Opts) (cfg : Config) (key value : string)
    (fs : MemFs.MemFs) (p : Path) :
  config_try_from env opts = Ok cfg -> operation cfg = Add key value ->
  paths_utf8 (data (from_config fs (cfg_config cfg) (cfg_pwd cfg))) = true -> path_utf8 (cfg_pwd cfg) = true ->
  parent (components (cfg_config cfg)) = Some p ->
  Forall (fun q => MemFs.is_file fs q = false /\ q ∉ MemFs.mem_readonly fs) (ancestors p) ->
  MemFs.is_dir fs (components (cfg_config cfg)) = false ->
  exists fs', main env opts fs = (fs', Ok []) /\
    fs_read_to_string fs' (components (cfg_config cfg)) =
      Ok (print_data (data (set_value (from_config fs (cfg_config cfg) (cfg_pwd cfg)) key value))).
Proof.
  intros Hc Hop Hu Hpw Hp Hpre Hd.
  destruct (save_mem_ok (set_value (from_config fs (cfg_config cfg) (cfg_pwd cfg)) key value) fs p
              (paths_utf8_set_value _ _ _ Hu Hpw) Hp Hpre Hd) as [fs' Hs].
  exists fs'. unfold main. rewrite Hc, Hop. cbn -[save]. rewrite Hs. split; [done|]. by apply save_Ok in Hs.
Qed.

(** C15: [projector add key value] from a working directory that is not
    UTF-8 and has no scope yet fails: [serde_json::to_string] cannot write
    the new directory key (or creating the config's directory failed
    first), and no file is written, so the config file keeps what it
    held. *)
Theorem main_add_path_not_utf8 (env : Env) (opts : Opts) (cfg : Config) (key value : string)
    (fs : MemFs.MemFs) :
  config_try_from env opts = Ok cfg -> operation cfg = Add key value ->
  path_utf8 (cfg_pwd cfg) = false ->
  scope_at (data (from_config fs (cfg_config cfg) (cfg_pwd cfg))) (components (cfg_pwd cfg)) = None ->
  exists fs' e, main env opts fs = (fs', Err e) /\ MemFs.mem_files fs' = MemFs.mem_files fs /\
    (e = JsonError PathNotUtf8 \/ exists io, e = IoError io).
Proof.
  intros Hc Hop Hpw Hnone. unfold main. rewrite Hc, Hop. cbn -[save]. unfold save.
  rewrite (to_string_set_value_not_utf8 (from_config fs (cfg_config cfg) (cfg_pwd cfg)) key value Hpw Hnone).
  destruct (parent (components (config _))) as [p|]; [destruct (fs_metadata_ok fs p)|].
  2: { unfold fs_create_dir_all, MemFs.mem_fs, st_map_err.
       pose proof (MemFs.create_dir_all_files (S (length p)) fs p) as Hf. unfold MemFs.create_dir_all.
       destruct (MemFs.create_dir_all_rec _ fs p) as [fs1 [[]|e]]; simpl in *; eauto 10. }
  all: simpl; eauto 10.
Qed.

(** ** Witnesses *)

Lemma save_then_load_witness :
  data_wf (data test_projector) /\
  save test_projector MemFs.empty_fs = (fs_after (save test_projector MemFs.empty_fs), Ok ()) /\
  (from_config (fs_after (save test_projector MemFs.empty_fs)) (config test_projector) "/x" =
    mkProjector (config test_projector) "/x" (data test_projector) /\
   (forall (ord : Scope -> list (string * string)) (l : list (PathBuf * Scope)),
      (forall sc, ord sc ≡ₚ map_to_list sc) -> l ≡ₚ data_entries (data test_projector) ->
      from_str_data (string_of_list_ascii (ser_data ord l)) = Ok (data test_projector))).
Proof.
  assert (H1 : data_wf (data test_projector)) by (apply (bool_decide_unpack _); vm_compute; reflexivity).
  assert (H2 : save test_projector MemFs.empty_fs =
               (fs_after (save test_projector MemFs.empty_fs), Ok ()))
    by (vm_compute; reflexivity).
  split; [exact H1 | split; [exact H2 | exact (save_then_load _ _ _ "/x" H1 H2)]].
Defined.

Lemma from_config_tolerant_witness :
  (fs_metadata_ok corrupt_fs (components cfg_path) = false \/
   (exists e, fs_read_to_string corrupt_fs (components cfg_path) = Err e) \/
   (exists s e, fs_read_to_string corrupt_fs (components cfg_path) = Ok s /\ from_str_data s = Err e)) /\
  data (from_config corrupt_fs cfg_path "/home/u") = mkData ∅.
Proof.
  assert (H : fs_metadata_ok corrupt_fs (components cfg_path) = false \/
   (exists e, fs_read_to_string corrupt_fs (components cfg_path) = Err e) \/
   (exists s e, fs_read_to_string corrupt_fs (components cfg_path) = Ok s /\ from_str_data s = Err e)).
  { right. right. exists "oops", InvalidType. split; vm_compute; reflexivity. }
  split; [exact H | exact (from_config_tolerant _ _ _ H)].
Defined.

Lemma main_add_then_print_witness :
  "foo" <> "add" /\ "foo" <> "rm" /\
  main test_env (opts_of ["add"; "foo"; "bar"]) MemFs.empty_fs =
    (fs_after (main test_env (opts_of ["add"; "foo"; "bar"]) MemFs.empty_fs), Ok []) /\
  main test_env (opts_of ["foo"]) (fs_after (main test_env (opts_of ["add"; "foo"; "bar"]) MemFs.empty_fs)) =
    (fs_after (main test_env (opts_of ["add"; "foo"; "bar"]) MemFs.empty_fs), Ok ["bar"]).
Proof.
  assert (H1 : "foo" <> "add") by (vm_compute; discriminate).
  assert (H2 : "foo" <> "rm") by (vm_compute; discriminate).
  assert (H3 : main test_env (opts_of ["add"; "foo"; "bar"]) MemFs.empty_fs =
    (fs_after (main test_env (opts_of ["add"; "foo"; "bar"]) MemFs.empty_fs), Ok []))
    by (vm_compute; reflexivity).
  split; [exact H1 | split; [exact H2 | split; [exact H3 | exact (main_add_then_print _ _ _ _ _ _ _ _ H1 H2 H3)]]].
Defined.

Lemma main_print_all_witness :
  config_try_from test_env (opts_of []) = Ok (mkConfig (Print None) "/home/u" cfg_path) /\
  operation (mkConfig (Print None) "/home/u" cfg_path) = Print None /\
  exists line, main test_env (opts_of []) corrupt_fs = (corrupt_fs, Ok [line]) /\
    from_str_scope line = Ok (get_value_all (from_config corrupt_fs cfg_path "/home/u")).
Proof.
  assert (H1 : config_try_from test_env (opts_of []) = Ok (mkConfig (Print None) "/home/u" cfg_path))
    by (vm_compute; reflexivity).
  assert (H2 : operation (mkConfig (Print None) "/home/u" cfg_path) = Print None) by reflexivity.
  split; [exact H1 | split; [exact H2 | exact (main_print_all _ _ corrupt_fs _ H1 H2)]].
Defined.

Lemma main_remove_rewrites_witness :
  config_try_from test_env (opts_of ["rm"; "foo"]) = Ok (mkConfig (Remove "foo") "/home/u" cfg_path) /\
  operation (mkConfig (Remove "foo") "/home/u" cfg_path) = Remove "foo" /\
  main test_env (opts_of ["rm"; "foo"]) MemFs.empty_fs =
    (fs_after (main test_env (opts_of ["rm"; "foo"]) MemFs.empty_fs), Ok []) /\
  fs_read_to_string (fs_after (main test_env (opts_of ["rm"; "foo"]) MemFs.empty_fs))
    (components cfg_path) =
    Ok (print_data (data (remove_value (from_config MemFs.empty_fs cfg_path "/home/u") "foo"))).
Proof.
  assert (H1 : config_try_from test_env (opts_of ["rm"; "foo"]) = Ok (mkConfig (Remove "foo") "/home/u" cfg_path))
    by (vm_compute; reflexivity).
  assert (H2 : operation (mkConfig (Remove "foo") "/home/u" cfg_path) = Remove "foo") by reflexivity.
  assert (H3 : main test_env (opts_of ["rm"; "foo"]) MemFs.empty_fs =
    (fs_after (main test_env (opts_of ["rm"; "foo"]) MemFs.empty_fs), Ok []))
    by (vm_compute; reflexivity).
  split; [exact H1 | split; [exact H2 | split; [exact H3 | exact (main_remove_rewrites _ _ _ _ _ _ _ H1 H2 H3)]]].
Defined.

Lemma main_add_corrupt_witness :
  config_try_from test_env (opts_of ["add"; "foo"; "bar"]) =
    Ok (mkConfig (Add "foo" "bar") "/home/u" cfg_path) /\
  operation (mkConfig (Add "foo" "bar") "/home/u" cfg_path) = Add "foo" "bar" /\
  fs_read_to_string corrupt_fs (components cfg_path) = Ok "oops" /\
  from_str_data "oops" = Err InvalidType /\
  main test_env (opts_of ["add"; "foo"; "bar"]) corrupt_fs =
    (fs_after (main test_env (opts_of ["add"; "foo"; "bar"]) corrupt_fs), Ok []) /\
  fs_read_to_string (fs_after (main test_env (opts_of ["add"; "foo"; "bar"]) corrupt_fs))
    (components cfg_path) =
    Ok (print_data (mkData {[components "/home/u" := ("/home/u", {["foo" := "bar"]})]})).
Proof.
  assert (H1 : config_try_from test_env (opts_of ["add"; "foo"; "bar"]) =
               Ok (mkConfig (Add "foo" "bar") "/home/u" cfg_path)) by (vm_compute; reflexivity).
  assert (H2 : operation (mkConfig (Add "foo" "bar") "/home/u" cfg_path) = Add "foo" "bar") by reflexivity.
  assert (H3 : fs_read_to_string corrupt_fs (components cfg_path) = Ok "oops") by (vm_compute; reflexivity).
  assert (H4 : from_str_data "oops" = Err InvalidType) by (vm_compute; reflexivity).
  assert (H5 : main test_env (opts_of ["add"; "foo"; "bar"]) corrupt_fs =
    (fs_after (main test_env (opts_of ["add"; "foo"; "bar"]) corrupt_fs), Ok []))
    by (vm_compute; reflexivity).
  do 5 (split; [assumption|]). exact (main_add_corrupt _ _ _ _ _ _ _ _ _ _ H1 H2 H3 H4 H5).
Defined.

Lemma main_add_succeeds_witness :
  config_try_from test_env (opts_of ["add"; "foo"; "bar"]) =
    Ok (mkConfig (Add "foo" "bar") "/home/u" cfg_path) /\
  operation (mkConfig (Add "foo" "bar") "/home/u" cfg_path) = Add "foo" "bar" /\
  paths_utf8 (data (from_config MemFs.empty_fs cfg_path "/home/u")) = true /\
  path_utf8 "/home/u" = true /\
  parent (components cfg_path) = Some (components "/p") /\
  Forall (fun q => MemFs.is_file MemFs.empty_fs q = false /\ q ∉ MemFs.mem_readonly MemFs.empty_fs)
    (ancestors (components "/p")) /\
  MemFs.is_dir MemFs.empty_fs (components cfg_path) = false /\
  exists fs', main test_env (opts_of ["add"; "foo"; "bar"]) MemFs.empty_fs = (fs', Ok []) /\
    fs_read_to_string fs' (components cfg_path) =
      Ok (print_data (data (set_value (from_config MemFs.empty_fs cfg_path "/home/u") "foo" "bar"))).
Proof.
  assert (H1 : config_try_from test_env (opts_of ["add"; "foo"; "bar"]) =
               Ok (mkConfig (Add "foo" "bar") "/home/u" cfg_path)) by (vm_compute; reflexivity).
  assert (H2 : operation (mkConfig (Add "foo" "bar") "/home/u" cfg_path) = Add "foo" "bar") by reflexivity.
  assert (H3 : paths_utf8 (data (from_config MemFs.empty_fs cfg_path "/home/u")) = true)
    by (vm_compute; reflexivity).
  assert (H4 : path_utf8 "/home/u" = true) by (vm_compute; reflexivity).
  assert (H5 : parent (components cfg_path) = Some (components "/p")) by (vm_compute; reflexivity).
  assert (H6 : Forall (fun q => MemFs.is_file MemFs.empty_fs q = false /\ q ∉ MemFs.mem_readonly MemFs.empty_fs)
                 (ancestors (components "/p"))) by (apply (bool_decide_unpack _); vm_compute; reflexivity).
  assert (H7 : MemFs.is_dir MemFs.empty_fs (components cfg_path) = false) by (vm_compute; reflexivity).
  do 7 (split; [assumption|]). exact (main_add_succeeds _ _ _ _ _ _ _ H1 H2 H3 H4 H5 H6 H7).
Defined.

Lemma main_add_path_not_utf8_witness :
  config_try_from test_env (mkOpts ["add"; "foo"; "bar"] (Some bad_pwd) (Some cfg_path)) =
    Ok (mkConfig (Add "foo" "bar") bad_pwd cfg_path) /\
  operation (mkConfig (Add "foo" "bar") bad_pwd cfg_path) = Add "foo" "bar" /\
  path_utf8 bad_pwd = false /\
  scope_at (data (from_config MemFs.empty_fs cfg_path bad_pwd)) (components bad_pwd) = None /\
  exists fs' e, main test_env (mkOpts ["add"; "foo"; "bar"] (Some bad_pwd) (Some cfg_path)) MemFs.empty_fs
    = (fs', Err e) /\ MemFs.mem_files fs' = MemFs.mem_files MemFs.empty_fs /\
    (e = JsonError PathNotUtf8 \/ exists io, e = IoError io).
Proof.
  assert (H1 : config_try_from test_env (mkOpts ["add"; "foo"; "bar"] (Some bad_pwd) (Some cfg_path)) =
               Ok (mkConfig (Add "foo" "bar") bad_pwd cfg_path)) by (vm_compute; reflexivity).
  assert (H2 : operation (mkConfig (Add "foo" "bar") bad_pwd cfg_path) = Add "foo" "bar") by reflexivity.
  assert (H3 : path_utf8 bad_pwd = false) by (vm_compute; reflexivity).
  assert (H4 : scope_at (data (from_config MemFs.empty_fs cfg_path bad_pwd)) (components bad_pwd) = None)
    by (vm_compute; reflexivity).
  do 4 (split; [assumption|]). exact (main_add_path_not_utf8 _ _ _ _ _ _ H1 H2 H3 H4).
Defined.
