(* ===== verification/Spec.v ===== *)
(** * Spec: the contract of spec.md and the refinement of the program to it

    The specification describes the store abstractly (sections 3 and 4):
    a map from directory to [Scope], with [ResolveOne] (nearest first),
    [ResolveAll] (overlay from the root down), [SetValue] and
    [RemoveValue] on the exact directory, and [Load] falling back to the
    empty store.  A [Scope] with no entries is, for readers, the same as no
    [Scope]: [store_equiv] ([≃]) is that equivalence, coarser than
    equality, and the readers and writers are [Proper] for it.  The
    spec's readers walk the ancestors of the current directory after
    [normalize] ([.] dropped, [..] cancelling the component before it);
    the code walks the raw components, and the two agree on the working
    directories [env::current_dir] returns, which have neither.

    [abs] forgets the key spelling the code keeps, and the theorems show
    that [ProjectorRs]'s methods implement the spec operations through it
    ([store_refines_spec]), that a sequence of runs of [main] sharing one
    config file behaves as the spec's state machine [spec_run]
    ([runs_simulate]), and that the code's readers, like the spec's, cannot
    tell an empty scope from an absent one. *)
From S2P Require Import Prelude Path ProjectorRs Operation Json Fs Main.

Abbreviation AStore := (gmap Path Scope).

(** The [Scope] of a directory, an absent one read as empty. *)
Definition scope_of (s : AStore) (p : Path) : Scope := default ∅ (s !! p).

(** [ResolveOne]: the first directory of the chain, nearest first, whose
    scope has [key]. *)
Fixpoint resolve_one_chain (s : AStore) (key : string) (chain : list Path) : option string :=
  match chain with
  | [] => None
  | p :: ps =>
      match scope_of s p !! key with
      | Some v => Some v
      | None => resolve_one_chain s key ps
      end
  end.

(** [ResolveAll] on a chain: overlay the scopes from the root down, the
    nearer one winning. *)
Definition resolve_all_chain (s : AStore) (chain : list Path) : Scope :=
  foldl (fun acc p => scope_of s p ∪ acc) ∅ (rev chain).

(** The normalisation spec.md asks of a directory (sections 3 and 4.1: no
    [.] segments, no [..] segments, no trailing separator; the last is
    already gone in [components]): [.] is dropped and [..] removes the
    segment before it ([/..] is [/]); a relative path keeps the [..]s it
    cannot resolve.  The accumulator is the result reversed. *)
Fixpoint normalize_rev (acc : list Component) (p : Path) : list Component :=
  match p with
  | [] => acc
  | CurDir :: p' => normalize_rev acc p'
  | ParentDir :: p' =>
      match acc with
      | Normal _ :: acc' => normalize_rev acc' p'
      | RootDir :: _ => normalize_rev acc p'
      | _ => normalize_rev (ParentDir :: acc) p'
      end
  | c :: p' => normalize_rev (c :: acc) p'
  end.

Definition normalize (p : Path) : Path := rev (normalize_rev [] p).

(** [ResolveOne] and [ResolveAll] of a directory, which "need not be
    normalized by the caller": the chain of its normal form. *)
Definition resolve_one (s : AStore) (dir : Path) (key : string) : option string :=
  resolve_one_chain s key (ancestors (normalize dir)).

Definition resolve_all (s : AStore) (dir : Path) : Scope :=
  resolve_all_chain s (ancestors (normalize dir)).

(** [SetValue] and [RemoveValue], on the exact directory. *)
Definition set_value_spec (s : AStore) (dir : Path) (key value : string) : AStore :=
  <[dir := <[key := value]> (scope_of s dir)]> s.

Definition remove_value_spec (s : AStore) (dir : Path) (key : string) : AStore :=
  match s !! dir with
  | Some sc => <[dir := delete key sc]> s
  | None => s
  end.

(** One invocation of the tool on the abstract store: a print changes
    nothing, [add] and [rm] act on the working directory. *)
Definition spec_apply (s : AStore) (dir : Path) (op : Operation) : AStore :=
  match op with
  | Print _ => s
  | Add key value => set_value_spec s dir key value
  | Remove key => remove_value_spec s dir key
  end.

Definition spec_run (s : AStore) (cmds : list (Path * Operation)) : AStore :=
  foldl (fun s c => spec_apply s c.1 c.2) s cmds.

(** The abstract store of the code's [Data]: the key spellings forgotten. *)
Definition abs (d : Data) : AStore := snd <$> projector d.

(** [Load]: the abstract store [from_config] reads from a config file. *)
Definition load `{FileSystem fsT} (fs : fsT) (c : PathBuf) : AStore :=
  abs (data (from_config fs c "")).

(** Successive invocations of the tool, as a shell [&&] chain: each run
    sees the filesystem the previous one left; the first failure stops. *)
Fixpoint run_all `{FileSystem fsT} (env : Env) (l : list Opts) (fs : fsT) : fsT * result unit main_error :=
  match l with
  | [] => (fs, Ok ())
  | o :: l' => ⟨fs1, _⟩ ⇐ main env o fs ; run_all env l' fs1
  end.

(** ** Empty and absent scopes *)

Definition store_equiv (s1 s2 : AStore) : Prop := forall p, scope_of s1 p = scope_of s2 p.

Notation "s1 ≃ s2" := (store_equiv s1 s2) (at level 70, no associativity) : projector_scope.

#[export] Instance store_equiv_equivalence : Equivalence store_equiv.
Proof. split; repeat intro; congruence. Qed.

(** Two stores are equivalent when each one's scopes are the other's:
    decided on the finitely many directories they mention. *)
#[export] Instance store_equiv_dec : RelDecision store_equiv.
Proof.
  intros s1 s2.
  refine (cast_if (decide (map_Forall (fun p sc => scope_of s2 p = sc) s1 /\
                           map_Forall (fun p sc => scope_of s1 p = sc) s2)));
    unfold store_equiv, scope_of.
  - intros p. destruct a as [H1 H2]. unfold scope_of in H1, H2.
    destruct (s1 !! p) as [sc1|] eqn:E1; simpl; [symmetry; exact (H1 p sc1 E1)|].
    destruct (s2 !! p) as [sc2|] eqn:E2; simpl; [|done].
    pose proof (H2 p sc2 E2) as H. cbv beta in H. by rewrite E1 in H.
  - intros Heq. apply n. unfold scope_of.
    split; intros p sc E; [rewrite <-(Heq p)|rewrite (Heq p)]; by rewrite E.
Defined.

#[export] Instance scope_of_proper : Proper (store_equiv ==> eq ==> eq) scope_of.
Proof. intros s1 s2 Hs p ? <-. apply Hs. Qed.

#[export] Instance resolve_one_chain_proper : Proper (store_equiv ==> eq ==> eq ==> eq) resolve_one_chain.
Proof.
  intros s1 s2 Hs key ? <- chain ? <-.
  induction chain as [|p ps IH]; [done|]. simpl. by rewrite (Hs p), IH.
Qed.

#[export] Instance resolve_all_chain_proper : Proper (store_equiv ==> eq ==> eq) resolve_all_chain.
Proof.
  intros s1 s2 Hs chain ? <-. unfold resolve_all_chain.
  generalize (∅ : Scope). induction (rev chain) as [|p ps IH]; intros acc; [done|].
  simpl. rewrite (Hs p). apply IH.
Qed.

#[export] Instance resolve_one_proper : Proper (store_equiv ==> eq ==> eq ==> eq) resolve_one.
Proof. intros s1 s2 Hs dir ? <- key ? <-. unfold resolve_one. by rewrite Hs. Qed.

#[export] Instance resolve_all_proper : Proper (store_equiv ==> eq ==> eq) resolve_all.
Proof. intros s1 s2 Hs dir ? <-. unfold resolve_all. by rewrite Hs. Qed.

#[export] Instance set_value_spec_proper :
  Proper (store_equiv ==> eq ==> eq ==> eq ==> store_equiv) set_value_spec.
Proof.
  intros s1 s2 Hs dir ? <- k ? <- v ? <- p. unfold set_value_spec.
  assert (Hi : forall s sc, scope_of (<[dir := sc]> s) p = if decide (dir = p) then sc else scope_of s p).
  { intros s sc. unfold scope_of. case_decide; [subst; by rewrite lookup_insert_eq|by rewrite lookup_insert_ne]. }
  rewrite !Hi. case_decide; [by rewrite (Hs dir)|apply Hs].
Qed.

#[export] Instance remove_value_spec_proper :
  Proper (store_equiv ==> eq ==> eq ==> store_equiv) remove_value_spec.
Proof.
  intros s1 s2 Hs dir ? <- k ? <- p. pose proof (Hs dir) as Hd. unfold scope_of in Hd.
  unfold remove_value_spec, scope_of.
  destruct (s1 !! dir) as [sc1|] eqn:E1, (s2 !! dir) as [sc2|] eqn:E2; simpl in Hd; subst;
    (destruct (decide (dir = p)) as [<-|Hne];
     [rewrite ?lookup_insert_eq, ?E1, ?E2; simpl; rewrite ?delete_empty; done
     |rewrite ?lookup_insert_ne by done; apply Hs]).
Qed.

(** ** The code's store implements the spec's *)

Lemma scope_at_abs (d : Data) (p : Path) : scope_at d p = abs d !! p.
Proof. unfold scope_at, abs. by rewrite lookup_fmap. Qed.

Lemma resolve_abs (d : Data) (key : string) (ps : list Path) :
  resolve d key ps = resolve_one_chain (abs d) key ps.
Proof.
  induction ps as [|p ps IH]; [done|]. simpl. rewrite scope_at_abs. unfold scope_of.
  destruct (abs d !! p); simpl; [case_match; [done|]|rewrite lookup_empty]; apply IH.
Qed.

(** The spec's consistency law holds of its two readers, on any chain. *)
Lemma resolve_all_chain_lookup (s : AStore) (chain : list Path) (key : string) :
  resolve_all_chain s chain !! key = resolve_one_chain s key chain.
Proof.
  unfold resolve_all_chain. induction chain as [|p ps IH]; [apply lookup_empty|].
  cbn [rev]. rewrite foldl_app. simpl.
  rewrite lookup_union, IH. by destruct (scope_of s p !! key), (resolve_one_chain s key ps).
Qed.

(** A path without [.] and [..] segments is its own normal form. *)
Lemma normalize_rev_id (acc : list Component) (p : Path) :
  CurDir ∉ p -> ParentDir ∉ p -> normalize_rev acc p = rev p ++ acc.
Proof.
  revert acc. induction p as [|c p IH]; intros acc Hc Hp; [done|].
  rewrite elem_of_cons in Hc, Hp. simpl.
  destruct c; [| by destruct Hc; left | by destruct Hp; left |];
    rewrite IH by (intros ?; eauto); by rewrite <-app_assoc.
Qed.

Lemma normalize_id (p : Path) : CurDir ∉ p -> ParentDir ∉ p -> normalize p = p.
Proof. intros Hc Hp. unfold normalize. by rewrite normalize_rev_id, app_nil_r, rev_involutive. Qed.

(** The code's readers walk the chain of the raw components of [pwd]. *)
Lemma get_value_chain (P : Projector) (key : string) :
  get_value P key = resolve_one_chain (abs (data P)) key (ancestors (components (pwd P))).
Proof. by rewrite get_value_resolve, resolve_abs. Qed.

Lemma get_value_all_chain (P : Projector) :
  get_value_all P = resolve_all_chain (abs (data P)) (ancestors (components (pwd P))).
Proof.
  apply map_eq. intros key. by rewrite get_value_all_resolve, resolve_all_chain_lookup, resolve_abs.
Qed.

Lemma abs_set_value (P : Projector) (key value : string) :
  abs (data (set_value P key value)) = set_value_spec (abs (data P)) (components (pwd P)) key value.
Proof.
  unfold abs, set_value_spec, scope_of. simpl. unfold hm_entry_or_default.
  rewrite fmap_insert, lookup_fmap. by destruct (projector (data P) !! components (pwd P)) as [[k0 v0]|].
Qed.

Lemma abs_remove_value (P : Projector) (key : string) :
  abs (data (remove_value P key)) = remove_value_spec (abs (data P)) (components (pwd P)) key.
Proof.
  unfold abs, remove_value_spec. simpl. unfold hm_get_mut_modify. rewrite lookup_fmap.
  apply map_eq. intros q. rewrite lookup_fmap.
  destruct (projector (data P) !! components (pwd P)) as [[k0 v0]|] eqn:E; simpl.
  - destruct (decide (components (pwd P) = q)) as [<-|Hne].
    + by rewrite lookup_alter_eq, lookup_insert_eq, E.
    + by rewrite lookup_alter_ne, lookup_insert_ne, lookup_fmap.
  - destruct (decide (components (pwd P) = q)) as [<-|Hne].
    + by rewrite lookup_alter_eq, lookup_fmap, E.
    + by rewrite lookup_alter_ne, lookup_fmap.
Qed.

(** One successful run of [main] acts on the loaded store as [spec_apply]. *)
Lemma main_refines_step `{FileSystemLaws fsT} (env : Env) (o : Opts) (fs fs' : fsT)
    (out : list string) (cfg : Config) :
  config_try_from env o = Ok cfg -> main env o fs = (fs', Ok out) ->
  load fs' (cfg_config cfg) = spec_apply (load fs (cfg_config cfg)) (components (cfg_pwd cfg)) (operation cfg).
Proof.
  intros Hc Hm. unfold main in Hm. rewrite Hc in Hm. unfold load.
  destruct (operation cfg) as [[k|]|k v|k]; simpl in Hm.
  - by simplify_eq.
  - by simplify_eq.
  - apply save_arm_Ok in Hm as [Hs _].
    pose proof (save_load _ fs fs' "" (set_value_wf _ k v (from_config_wf fs _ _)) Hs) as E.
    change (config (set_value (from_config fs (cfg_config cfg) (cfg_pwd cfg)) k v)) with (cfg_config cfg) in E.
    rewrite E, abs_set_value. reflexivity.
  - apply save_arm_Ok in Hm as [Hs _].
    pose proof (save_load _ fs fs' "" (remove_value_wf _ k (from_config_wf fs _ _)) Hs) as E.
    change (config (remove_value (from_config fs (cfg_config cfg) (cfg_pwd cfg)) k)) with (cfg_config cfg) in E.
    rewrite E, abs_remove_value. reflexivity.
Qed.

(** ** Theorems *)

(** C27: on a working directory in normal form (no [.] and no [..]
    segment: the form spec.md gives every directory of the store), the
    four methods of [Projector] implement the spec's operations on the
    abstract store: [get_value] is [ResolveOne], [get_value_all] is
    [ResolveAll] (both normalising their directory, which is then the
    identity), [set_value] and [remove_value] are [SetValue] and
    [RemoveValue] on the working directory. *)
Theorem store_refines_spec (P : Projector) (key value : string) :
  CurDir ∉ components (pwd P) -> ParentDir ∉ components (pwd P) ->
  get_value P key = resolve_one (abs (data P)) (components (pwd P)) key /\
  get_value_all P = resolve_all (abs (data P)) (components (pwd P)) /\
  abs (data (set_value P key value)) = set_value_spec (abs (data P)) (components (pwd P)) key value /\
  abs (data (remove_value P key)) = remove_value_spec (abs (data P)) (components (pwd P)) key.
Proof.
  intros Hc Hp. unfold resolve_one, resolve_all. rewrite normalize_id by done.
  split; [apply get_value_chain|]. split; [apply get_value_all_chain|].
  split; [apply abs_set_value|apply abs_remove_value].
Qed.

(** C28: successive runs of [projector] that share one config file act on
    the store that file holds exactly as the spec's state machine: each
    print leaves it, each [add] and [rm] applies [SetValue] or
    [RemoveValue] in that run's working directory, in order. *)
Theorem runs_simulate `{FileSystemLaws fsT} (env : Env) (c : PathBuf) (l : list Opts)
    (cfgs : list Config) (fs fs' : fsT) :
  Forall2 (fun o cfg => config_try_from env o = Ok cfg /\ cfg_config cfg = c) l cfgs ->
  run_all env l fs = (fs', Ok ()) ->
  load fs' c = spec_run (load fs c) ((fun cfg => (components (cfg_pwd cfg), operation cfg)) <$> cfgs).
Proof.
  intros Hl. revert fs. unfold spec_run.
  induction Hl as [|o cfg l cfgs [Hc Hcc] Hl IH]; intros fs Hr; simpl in Hr.
  - by simplify_eq.
  - apply st_bind_Ok in Hr as (fs1 & out & Hm & Hr).
    rewrite fmap_cons. cbn [foldl fst snd]. rewrite (IH fs1 Hr). subst c.
    by rewrite (main_refines_step env o fs fs1 out cfg Hc Hm).
Qed.

(** C29: as the spec requires of readers, [get_value] and [get_value_all]
    cannot tell an empty scope from an absent one: stores that differ only
    there give the same answers. *)
Theorem readers_ignore_empty_scopes (P P' : Projector) (key : string) :
  abs (data P) ≃ abs (data P') -> pwd P = pwd P' ->
  get_value P key = get_value P' key /\ get_value_all P = get_value_all P'.
Proof.
  intros Hs Hp. rewrite !get_value_chain, !get_value_all_chain, Hp, Hs. done.
Qed.

(** ** Witnesses *)

Lemma store_refines_spec_witness :
  (CurDir ∉ components (pwd test_projector)) /\ (ParentDir ∉ components (pwd test_projector)) /\
  get_value test_projector "foo" = resolve_one (abs (data test_projector)) (components (pwd test_projector)) "foo" /\
  get_value_all test_projector = resolve_all (abs (data test_projector)) (components (pwd test_projector)) /\
  abs (data (set_value test_projector "foo" "v")) =
    set_value_spec (abs (data test_projector)) (components (pwd test_projector)) "foo" "v" /\
  abs (data (remove_value test_projector "foo")) =
    remove_value_spec (abs (data test_projector)) (components (pwd test_projector)) "foo".
Proof.
  assert (H1 : CurDir ∉ components (pwd test_projector)) by (apply (bool_decide_unpack _); vm_compute; reflexivity).
  assert (H2 : ParentDir ∉ components (pwd test_projector)) by (apply (bool_decide_unpack _); vm_compute; reflexivity).
  split; [exact H1 | split; [exact H2 | exact (store_refines_spec test_projector "foo" "v" H1 H2)]].
Defined.

Lemma runs_simulate_witness :
  Forall2 (fun o cfg => config_try_from test_env o = Ok cfg /\ cfg_config cfg = cfg_path)
    [opts_of ["add"; "foo"; "bar"]; opts_of ["foo"]; opts_of ["rm"; "foo"]]
    [mkConfig (Add "foo" "bar") "/home/u" cfg_path; mkConfig (Print (Some "foo")) "/home/u" cfg_path;
     mkConfig (Remove "foo") "/home/u" cfg_path] /\
  run_all test_env [opts_of ["add"; "foo"; "bar"]; opts_of ["foo"]; opts_of ["rm"; "foo"]] MemFs.empty_fs =
    (fs_after (run_all test_env
          [opts_of ["add"; "foo"; "bar"]; opts_of ["foo"]; opts_of ["rm"; "foo"]] MemFs.empty_fs), Ok ()) /\
  load (fs_after (run_all test_env
          [opts_of ["add"; "foo"; "bar"]; opts_of ["foo"]; opts_of ["rm"; "foo"]] MemFs.empty_fs)) cfg_path =
  spec_run (load MemFs.empty_fs cfg_path)
    ((fun cfg => (components (cfg_pwd cfg), operation cfg)) <$>
      [mkConfig (Add "foo" "bar") "/home/u" cfg_path; mkConfig (Print (Some "foo")) "/home/u" cfg_path;
       mkConfig (Remove "foo") "/home/u" cfg_path]).
Proof.
  assert (H1 : Forall2 (fun o cfg => config_try_from test_env o = Ok cfg /\ cfg_config cfg = cfg_path)
    [opts_of ["add"; "foo"; "bar"]; opts_of ["foo"]; opts_of ["rm"; "foo"]]
    [mkConfig (Add "foo" "bar") "/home/u" cfg_path; mkConfig (Print (Some "foo")) "/home/u" cfg_path;
     mkConfig (Remove "foo") "/home/u" cfg_path])
    by (repeat constructor; vm_compute; reflexivity).
  assert (H2 : run_all test_env [opts_of ["add"; "foo"; "bar"]; opts_of ["foo"]; opts_of ["rm"; "foo"]]
                 MemFs.empty_fs =
    (fs_after (run_all test_env
          [opts_of ["add"; "foo"; "bar"]; opts_of ["foo"]; opts_of ["rm"; "foo"]] MemFs.empty_fs), Ok ()))
    by (vm_compute; reflexivity).
  split; [exact H1 | split; [exact H2 | exact (runs_simulate _ _ _ _ _ _ H1 H2)]].
Defined.

Lemma readers_ignore_empty_scopes_witness :
  abs (data (mkProjector "/c" "/a/b" (mkData {[components "/a" := ("/a", ∅)]}))) ≃
    abs (data (mkProjector "/c" "/a/b" (mkData ∅))) /\
  pwd (mkProjector "/c" "/a/b" (mkData {[components "/a" := ("/a", ∅)]})) =
    pwd (mkProjector "/c" "/a/b" (mkData ∅)) /\
  get_value (mkProjector "/c" "/a/b" (mkData {[components "/a" := ("/a", ∅)]})) "k" =
    get_value (mkProjector "/c" "/a/b" (mkData ∅)) "k" /\
  get_value_all (mkProjector "/c" "/a/b" (mkData {[components "/a" := ("/a", ∅)]})) =
    get_value_all (mkProjector "/c" "/a/b" (mkData ∅)).
Proof.
  assert (H1 : abs (data (mkProjector "/c" "/a/b" (mkData {[components "/a" := ("/a", ∅)]}))) ≃
                 abs (data (mkProjector "/c" "/a/b" (mkData ∅))))
    by (apply (bool_decide_unpack _); vm_compute; reflexivity).
  assert (H2 : pwd (mkProjector "/c" "/a/b" (mkData {[components "/a" := ("/a", ∅)]})) =
                 pwd (mkProjector "/c" "/a/b" (mkData ∅))) by reflexivity.
  split; [exact H1 | split; [exact H2 | exact (readers_ignore_empty_scopes _ _ "k" H1 H2)]].
Defined.
